(** * Fractal Traveller (FTRAVEL.C): a shallow embedding and its properties

    The development follows [src/tools/fracTravel2000/FTRAVEL.C].

    - C [double] is IEEE-754 binary64, modelled by Rocq's primitive [float]
      with every operation rounded to binary64; every arithmetic expression
      keeps the source's operator order.  (A compiler that keeps
      intermediates in x87 extended precision may round differently; the
      concrete evaluations below are on values that are exact either way or
      are stated as equations between the computed doubles.)
    - C [int] is modelled in [Z].  All integers the program manipulates are
      screen coordinates, loop counters below [0x1000] and colour indices, so
      no signed operation leaves the 32-bit range (signed overflow would be
      undefined behaviour in C and is not given a meaning here).  Bit tests
      [x & m] are [Z.land], which agrees with two's complement on negatives.
    - Loops and the recursion of [recursor] take a fuel argument and return
      [None] when it runs out; the theorems give the fuel that suffices.
    - The volatile tick counter [tact] is written by the timer interrupt; the
      rasterizer only reads it.  Its successive readings are an oracle
      [tact_at : nat -> Z], indexed by the number of reads made so far. *)

From Stdlib Require Import ZArith Lia Bool List.
From Stdlib Require Import Floats.
From stdpp Require Import base option list.

Local Open Scope Z_scope.

(** ** Constants of the source (lines 32-41) *)

Definition Xres : Z := 1024.
Definition Yres : Z := 768.
Definition Xmax : Z := Xres.
Definition Ymax : Z := Yres.
Definition ipp : Z := 0xFF.
Definition orbit_iter_limit : Z := 0xFFF.
Definition probe_size : Z := 0x180.

(** ** Conversions between [int] and [double] *)

(** [(double) n] for an [int] [n]: exact, since |n| < 2^31 < 2^53. *)
Definition double_of_int (n : Z) : float :=
  if n <? 0 then PrimFloat.opp (PrimFloat.of_uint63 (Uint63.of_Z (- n)))
  else PrimFloat.of_uint63 (Uint63.of_Z n).

(** [(int) d] for a [double] [d]: truncation toward zero.  A NaN, an infinity
    or a value outside the [int] range is undefined in C; the x87 [fistp] of
    the target stores the "integer indefinite" 0x80000000, which is taken
    here. *)
Definition int_of_double (d : float) : Z :=
  match Prim2SF d with
  | S754_zero _ => 0
  | S754_finite s m e =>
      let mag := if 0 <=? e then Z.shiftl (Z.pos m) e
                 else Z.shiftr (Z.pos m) (- e) in
      let v := if s then - mag else mag in
      if (- 2 ^ 31 <=? v) && (v <? 2 ^ 31) then v else - 2 ^ 31
  | _ => - 2 ^ 31
  end.

(** ** The complex maps (lines 65-78)

    [Re_Z] and [Im_Z] are the macros [Re_Z2 = X*X-Y*Y] and
    [Im_Z2 = 2*oX*Y]; they are expanded textually, so [Re_Z+x] is
    [(X*X-Y*Y)+x] and [Im_Z+y] is [((2*oX)*Y)+y]. *)

Definition Re_Z (X Y : float) : float := (X * X - Y * Y)%float.
Definition Im_Z (oX Y : float) : float := (2 * oX * Y)%float.

(** One execution of the body shared by the three iteration loops: [c] is
    the additive constant ([x,y] for Mandelbrot, [cx,cy] for Julia). *)
Definition next_iterate (c z : float * float) : float * float :=
  let '(X, Y) := z in
  let oX := X in
  let X := (Re_Z X Y + fst c)%float in
  let Y := (Im_Z oX Y + snd c)%float in
  (X, Y).

(** The loop test [X*X+Y*Y <= 4]. *)
Definition within_radius (z : float * float) : bool :=
  (fst z * fst z + snd z * snd z <=? 4)%float.

(** ** Escape-time iterators (lines 80-108)

    [while ( X*X+Y*Y <= 4 && ++i < limit ) { body }], returning the final
    [i].  The counter is incremented only when the radius test succeeds. *)
Fixpoint escape_loop (fuel : nat) (limit : Z) (c z : float * float) (i : Z)
  : option Z :=
  match fuel with
  | O => None
  | S fuel' =>
      if within_radius z then
        let i := i + 1 in
        if i <? limit then escape_loop fuel' limit c (next_iterate c z) i
        else Some i
      else Some i
  end.

Definition mandel_iterator_fuel (fuel : nat) (x y : float) : option Z :=
  escape_loop fuel ipp (x, y) (x, y) 0.

Definition julia_iterator_fuel (fuel : nat) (cx cy : float) (x y : float)
  : option Z :=
  escape_loop fuel ipp (cx, cy) (x, y) 0.

(** The loops run at most [ipp] times, so [ipp] units of fuel always do. *)
Definition mandel_iterator (x y : float) : option Z :=
  mandel_iterator_fuel (Z.to_nat ipp) x y.

Definition julia_iterator (cx cy : float) (x y : float) : option Z :=
  julia_iterator_fuel (Z.to_nat ipp) cx cy x y.

(** ** The viewport (globals of lines 44-46) and its recomputation

    [xs], [xe], [ys], [ye] are the plane bounds, [xu], [yu] the plane units
    per pixel. *)

Record viewport := Viewport {
  xs : float; xe : float;
  ys : float; ye : float;
  xu : float; yu : float
}.

(** The initial values of the globals; [xu] and [yu] have static storage and
    no initialiser, hence start at zero. *)
Definition default_view : viewport := Viewport (-2) 2 (-2) 2 0 0.

(** Lines 395-407 of [fly], the aspect correction at the head of every
    frame.  [w] and [h] stand for the macros [Xmax] and [Ymax], which are
    [int] constants converted to [double] by the arithmetic. *)
Definition fly_recompute (w h : Z) (v : viewport) : viewport :=
  let xu' := ((xe v - xs v) / double_of_int w)%float in
  let yu' := ((ye v - ys v) / double_of_int h)%float in
  if (yu' <? xu')%float (* xu > yu *) then
    let yu' := xu' in
    let ye' := (yu' * double_of_int h + ys v)%float in
    Viewport (xs v) (xe v) (ys v) ye' xu' yu'
  else
    let xu' := yu' in
    let xe' := (xu' * double_of_int w + xs v)%float in
    Viewport (xs v) xe' (ys v) (ye v) xu' yu'.

(** ** The display surface

    Only the calls the core makes are modelled.  A [rect] is one [rectfill]
    call: the inclusive corner coordinates and the colour.  Clipping to the
    bitmap is not modelled: pixels are addressed on the unbounded integer
    plane, which is what the screen shows for the pixels it has. *)

Record rect := Rect { x1 : Z; y1 : Z; x2 : Z; y2 : Z; color : Z }.

Inductive draw_call :=
| Rectfill (r : rect)
| Putpixel (x y col : Z)
| Line (xa ya xb yb col : Z)
| Textprintf (x y col : Z) (value : Z).

Definition covers (d : rect) (x y : Z) : bool :=
  (x1 d <=? x) && (x <=? x2 d) && (y1 d <=? y) && (y <=? y2 d).

(** Reading a pixel back from a history of fills (most recent first):
    the colour of the latest fill that covers it, [None] when no recorded
    fill touched it. *)
Fixpoint getpixel (scr : list rect) (x y : Z) : option Z :=
  match scr with
  | [] => None
  | d :: scr' => if covers d x y then Some (color d) else getpixel scr' x y
  end.

(** ** The adaptive rasterizer (lines 149-182) *)

(** The globals [recursor] and [view] write, the number of reads of the
    volatile [tact] made so far, and the fills issued on the screen. *)
Record raster_state := RasterState {
  frag_size : Z;
  step : Z;
  over : Z;
  tact_reads : nat;
  screen : list rect
}.

Definition set_frag_size (v : Z) (s : raster_state) : raster_state :=
  RasterState v (step s) (over s) (tact_reads s) (screen s).
Definition set_step (v : Z) (s : raster_state) : raster_state :=
  RasterState (frag_size s) v (over s) (tact_reads s) (screen s).
Definition set_over (v : Z) (s : raster_state) : raster_state :=
  RasterState (frag_size s) (step s) v (tact_reads s) (screen s).

Definition rectfill (xa ya xb yb col : Z) (s : raster_state) : raster_state :=
  RasterState (frag_size s) (step s) (over s) (tact_reads s)
              (Rect xa ya xb yb col :: screen s).

Section Rasterizer.

(** [iter_function] is the function pointer of line 63; [vp] holds the
    viewport globals, which the rasterizer only reads. *)
Variable iter_function : float -> float -> Z.
Variable vp : viewport.
Variable tact_at : nat -> Z.

Definition read_tact (s : raster_state) : Z * raster_state :=
  (tact_at (tact_reads s),
   RasterState (frag_size s) (step s) (over s) (S (tact_reads s)) (screen s)).

(** The colour of the block whose origin is pixel [(x, y)]:
    [iter_function( xs+X*xu, ys+Y*yu )] with [X = x], [Y = y] as doubles. *)
Definition block_color (x y : Z) : Z :=
  let X := double_of_int x in
  let Y := double_of_int y in
  iter_function (xs vp + X * xu vp)%float (ys vp + Y * yu vp)%float.

(** The test [over || x&((l<<1)-1) || y&((l<<1)-1)]. *)
Definition must_paint (ov x y l : Z) : bool :=
  negb (ov =? 0)
  || negb (Z.land x (Z.shiftl l 1 - 1) =? 0)
  || negb (Z.land y (Z.shiftl l 1 - 1) =? 0).

Fixpoint recursor (fuel : nat) (x y l : Z) (s : raster_state)
  : option raster_state :=
  match fuel with
  | O => None
  | S fuel' =>
      if l =? frag_size s then
        Some (if must_paint (over s) x y l
              then rectfill x y (x + l - 1) (y + l - 1) (block_color x y) s
              else s)
      else
        let '(t, s) := read_tact s in
        if negb (t =? 0) then Some s
        else
          let l := Z.shiftr l 1 in
          s ← recursor fuel' x y l s;
          s ← recursor fuel' (x + l) y l s;
          s ← recursor fuel' (x + l) (y + l) l s;
          recursor fuel' x (y + l) l s
  end.

(** [for ( x=xxs; x<xxe; x+=step ) recursor( x, y, step );] *)
Fixpoint for_x (n fuel : nat) (x y xxe : Z) (s : raster_state)
  : option raster_state :=
  if x <? xxe then
    match n with
    | O => None
    | S n' =>
        s ← recursor fuel x y (step s) s;
        for_x n' fuel (x + step s) y xxe s
    end
  else Some s.

(** [for ( y=yys; y<yye; y+=step ) for ( x=xxs; ... ) ...] *)
Fixpoint for_y (n fuel : nat) (xxs y xxe yye : Z) (s : raster_state)
  : option raster_state :=
  if y <? yye then
    match n with
    | O => None
    | S n' =>
        s ← for_x fuel fuel xxs y xxe s;
        for_y n' fuel xxs (y + step s) xxe yye s
    end
  else Some s.

(** One refinement pass: the two nested loops run for the current
    [frag_size] and [over]. *)
Definition pass (fuel : nat) (xxs yys xxe yye : Z) (s : raster_state)
  : option raster_state :=
  for_y fuel fuel xxs yys xxe yye s.

(** [for ( ...; frag_size>=1; frag_size>>=1, over=0 ) pass] *)
Fixpoint for_frag_size (n fuel : nat) (xxs yys xxe yye : Z)
         (s : raster_state) : option raster_state :=
  if 1 <=? frag_size s then
    match n with
    | O => None
    | S n' =>
        s ← pass fuel xxs yys xxe yye s;
        let s := set_frag_size (Z.shiftr (frag_size s) 1) s in
        let s := set_over 0 s in
        for_frag_size n' fuel xxs yys xxe yye s
    end
  else Some s.

Definition view (fuel : nat) (xxs yys xxe yye : Z) (s : raster_state)
  : option raster_state :=
  let s := set_over 1 s in
  let s := set_step 0x10 s in
  let s := set_frag_size (step s) s in
  for_frag_size fuel fuel xxs yys xxe yye s.

End Rasterizer.

(** ** The palette (lines 60, 205-298)

    Allegro's [PALETTE] is an array of 256 [RGB] structs with [unsigned char]
    fields [r], [g], [b] (and a filler byte the program never touches).  The
    table is a list; the program indexes it within 0..255 only.  Outside the
    list [!!!] yields the zero entry and an update does nothing. *)

Record RGB := mkRGB { r : Z; g : Z; b : Z }.

#[global] Instance RGB_inhabited : Inhabited RGB := populate (mkRGB 0 0 0).

(** Storing an [int] expression into an [unsigned char] field. *)
Definition uchar (v : Z) : Z := v mod 256.

(** [for ( i=from; i<from+count; i++ ) body(i)] *)
Fixpoint for_up (count from : nat) (body : nat -> list RGB -> list RGB)
         (pal : list RGB) : list RGB :=
  match count with
  | O => pal
  | S count' => for_up count' (S from) body (body from pal)
  end.

(** [for ( i=from; i>0; i-- ) body(i)] *)
Fixpoint for_down (from : nat) (body : nat -> list RGB -> list RGB)
         (pal : list RGB) : list RGB :=
  match from with
  | O => pal
  | S i' => for_down i' body (body from pal)
  end.

(** The macro [SetPalColor(x,e,f,y)]. *)
Definition SetPalColor (x : nat) (e f y : Z) (pal : list RGB) : list RGB :=
  <[x := mkRGB (uchar e) (uchar f) (uchar y)]> pal.

(** [set_default_pal], on the zero-initialised global table. *)
Definition set_default_pal : list RGB :=
  let pal := replicate 256 (mkRGB 0 0 0) in
  let pal := for_up 0x40 0
               (fun i => SetPalColor i (Z.of_nat i) 0 0) pal in
  let pal := for_up 0x40 0x40
               (fun i => SetPalColor i 0x3F (Z.of_nat i - 0x40) 0) pal in
  let pal := for_up 0x40 0x80
               (fun i => SetPalColor i 0x3F 0x3F (Z.of_nat i - 0xC0)) pal in
  for_up 0x40 0xC0 (fun i => SetPalColor i 0x3F 0x3F 0x3F) pal.

(** [pal[i].r = pal[j].r; pal[i].g = pal[j].g; pal[i].b = pal[j].b;] *)
Definition copy_entry (i j : nat) (pal : list RGB) : list RGB :=
  <[i := mkRGB (r (pal !!! j)) (g (pal !!! j)) (b (pal !!! j))]> pal.

(** The state of a rotation loop: the table and the locals [pr], [pg],
    [pb]. *)
Definition rot_state : Type := list RGB * (Z * Z * Z).

(** One execution of the body of the loop of [rot_forward_pal]
    (lines 251-265): shift the entries up, put the saved entry at 0, and save
    the new last entry. *)
Definition forward_tick (st : rot_state) : rot_state :=
  let '(pal, (pr, pg, pb)) := st in
  let pal := for_down 0xFF (fun i => copy_entry i (i - 1)) pal in
  let pal := <[0%nat := mkRGB pr pg pb]> pal in
  (pal, (r (pal !!! 0xFF%nat), g (pal !!! 0xFF%nat), b (pal !!! 0xFF%nat))).

(** [rot_forward_pal], when the loop body runs [ticks] times before a key
    or mouse event ends the loop. *)
Definition rot_forward_pal (ticks : nat) (pal : list RGB) : list RGB :=
  let saved := (r (pal !!! 0xFF%nat), g (pal !!! 0xFF%nat),
                b (pal !!! 0xFF%nat)) in
  fst (Nat.iter ticks forward_tick (pal, saved)).

(** One execution of the body of the loop of [rot_backward_pal]
    (lines 284-293): shift the entries down and put the saved entry at 255.
    The locals are not assigned in this loop. *)
Definition backward_tick (st : rot_state) : rot_state :=
  let '(pal, (pr, pg, pb)) := st in
  let pal := for_up 0xFF 0 (fun i => copy_entry i (i + 1)) pal in
  let pal := <[0xFF%nat := mkRGB pr pg pb]> pal in
  (pal, (pr, pg, pb)).

Definition rot_backward_pal (ticks : nat) (pal : list RGB) : list RGB :=
  let saved := (r (pal !!! 0%nat), g (pal !!! 0%nat), b (pal !!! 0%nat)) in
  fst (Nat.iter ticks backward_tick (pal, saved)).

(** ** The orbit tracer (lines 110-147) *)

(** The globals [orbit_iterator] reads besides the viewport. *)
Record orbit_globals := OrbitGlobals {
  cx : float; cy : float;
  orbit_pixel : Z;
  pal_gradient : Z
}.

(** The plane-to-pixel expressions [xxs+(X-xs)/xu] and [yys+(Y-ys)/yu],
    converted to [int] as arguments of [putpixel] and [line]. *)
Definition pixel_x (vp : viewport) (xxs : Z) (X : float) : Z :=
  int_of_double (double_of_int xxs + (X - xs vp) / xu vp)%float.
Definition pixel_y (vp : viewport) (yys : Z) (Y : float) : Z :=
  int_of_double (double_of_int yys + (Y - ys vp) / yu vp)%float.

(** The second loop of [orbit_iterator] (lines 128-145); [out] collects the
    display calls, most recent first. *)
Fixpoint orbit_draw_loop (fuel : nat) (og : orbit_globals) (vp : viewport)
         (xxs yys itr : Z) (z sz : float * float) (i : Z)
         (out : list draw_call) : option (Z * list draw_call) :=
  match fuel with
  | O => None
  | S fuel' =>
      if within_radius z then
        let i := i + 1 in
        if i <? orbit_iter_limit then
          let col := if negb (pal_gradient og =? 0)
                     then Z.quot (Z.shiftl i 8) itr
                     else 0xFF in
          let call :=
            if negb (orbit_pixel og =? 0)
            then Putpixel (pixel_x vp xxs (fst z)) (pixel_y vp yys (snd z)) col
            else Line (pixel_x vp xxs (fst sz)) (pixel_y vp yys (snd sz))
                      (pixel_x vp xxs (fst z)) (pixel_y vp yys (snd z)) col in
          orbit_draw_loop fuel' og vp xxs yys itr
                          (next_iterate (cx og, cy og) z) z i (call :: out)
        else Some (i, out)
      else Some (i, out)
  end.

Definition orbit_iterator (fuel : nat) (og : orbit_globals) (vp : viewport)
           (xxs yys xxe yye : Z) : option (list draw_call) :=
  let c := (cx og, cy og) in
  let out := [Rectfill (Rect xxs yys xxe yye 0)] in
  itr ← escape_loop fuel orbit_iter_limit c c 0;
  '(i, out) ← orbit_draw_loop fuel og vp xxs yys itr c c 0 out;
  Some (Textprintf 1 (yye - 8) 0xE0 i :: out).

(** The viewport the probe installs (lines 486-490). *)
Definition probe_view : viewport :=
  Viewport (-2) 2 (-2) 2 ((2 - -2) / double_of_int probe_size)
           ((2 - -2) / double_of_int probe_size).

(** * Notions used in the statements *)

(** The iterate reached after [k] executions of the loop body. *)
Fixpoint orbit (c z : float * float) (k : nat) : float * float :=
  match k with
  | O => z
  | S k' => orbit c (next_iterate c z) k'
  end.

(** The raw per-pixel scales computed by lines 395-396. *)
Definition raw_xu (w : Z) (v : viewport) : float :=
  ((xe v - xs v) / double_of_int w)%float.
Definition raw_yu (h : Z) (v : viewport) : float :=
  ((ye v - ys v) / double_of_int h)%float.

(** The origin of the block of edge [f] that contains coordinate [p], for
    blocks laid on the grid of multiples of [f]. *)
Definition origin (f p : Z) : Z := f * (p / f).

Definition pow2 (k : nat) : Z := 2 ^ Z.of_nat k.

Definition in_square (x y l px py : Z) : bool :=
  (x <=? px) && (px <? x + l) && (y <=? py) && (py <? y + l).

(** The pixels of the tiles visited by one row loop started at [x], and by
    the whole double loop started at [(x, y)]: the tile of a pixel is the
    16-block it lies in. *)
Definition in_row (x y xxe px py : Z) : bool :=
  (x <=? px) && (origin 16 px <? xxe) && (y <=? py) && (py <? y + 16).

Definition in_tiles (x y xxe yye px py : Z) : bool :=
  (x <=? px) && (origin 16 px <? xxe) && (y <=? py) && (origin 16 py <? yye).

(** [emits P s s']: the control globals are kept and the screen gained
    fills that all satisfy [P], and nothing else. *)
Definition emits (P : rect -> Prop) (s s' : raster_state) : Prop :=
  frag_size s' = frag_size s /\ step s' = step s /\ over s' = over s
  /\ exists seg, screen s' = seg ++ screen s /\ Forall P seg.

(** The state in which a pass of edge [f] with flag [ov] starts, when the
    previous pass (or the caller) left [s]. *)
Definition start_pass (f ov : Z) (s : raster_state) : raster_state :=
  RasterState f 16 ov (tact_reads s) (screen s).

(** The field iterators as [iter_function] values.  They always return
    ([field_iterators_range]), so the default is never taken. *)
Definition as_int (r : option Z) : Z :=
  match r with Some n => n | None => 0 end.

Definition mandel_function (x y : float) : Z := as_int (mandel_iterator x y).

Definition blank_screen : raster_state := RasterState 0 0 0 0 [].

(** The colour argument of a display call. *)
Definition call_color (d : draw_call) : Z :=
  match d with
  | Rectfill rc => color rc
  | Putpixel _ _ col => col
  | Line _ _ _ _ col => col
  | Textprintf _ _ col _ => col
  end.

(** The colour [orbit_iterator] computes for step [i] when the priming loop
    counted [itr]. *)
Definition step_color (og : orbit_globals) (itr i : Z) : Z :=
  if negb (pal_gradient og =? 0) then Z.quot (Z.shiftl i 8) itr else 0xFF.

(** The number of 16-tiles a loop of [view] visits from coordinate [a] up
    to (excluding) [b]: the iterations of [for ( x=a; x<b; x+=16 )]. *)
Definition tile_count (a b : Z) : nat := Z.to_nat ((b - a + 15) / 16).

(** The terminal blocks a pass reaches.  [tile_at xxs xxe t]: [t] is a value
    the loop [for ( x=xxs; x<xxe; x+=16 )] gives its variable.
    [block_at l n x u]: [u] is the coordinate of one of the [n] blocks of
    edge [l] laid from [x] on.  [pass_block l xxs yys xxe yye u v]: the
    block of edge [l] at [(u, v)] lies in one of the 16-tiles the two loops
    of [view] visit, on the subdivision of that tile. *)
Definition tile_at (xxs xxe t : Z) : Prop :=
  exists i, 0 <= i /\ t = xxs + 16 * i /\ t < xxe.

Definition block_at (l n x u : Z) : Prop :=
  exists a, 0 <= a < n /\ u = x + l * a.

Definition grid_at (l xxs xxe u : Z) : Prop :=
  exists t, tile_at xxs xxe t /\ block_at l (16 / l) t u.

Definition pass_block (l xxs yys xxe yye u v : Z) : Prop :=
  grid_at l xxs xxe u /\ grid_at l yys yye v.

Section RasterizerNotions.

Variable iter_function : float -> float -> Z.
Variable vp : viewport.

Local Abbreviation block_color := (block_color iter_function vp).

(** [repaints R s s']: from [s] to [s'] the three control globals are kept,
    and the pixels changed are those of region [R] whose block (of the
    current edge, on the grid of its multiples) passes the paint test; each
    of them now shows its block's colour. *)
Definition repaints (R : Z -> Z -> bool) (s s' : raster_state) : Prop :=
  frag_size s' = frag_size s /\ step s' = step s /\ over s' = over s
  /\ forall px py,
      getpixel (screen s') px py
      = if R px py && must_paint (over s) (origin (frag_size s) px)
                                 (origin (frag_size s) py) (frag_size s)
        then Some (block_color (origin (frag_size s) px)
                               (origin (frag_size s) py))
        else getpixel (screen s) px py.

(** [paints B s s']: from [s] to [s'] the three control globals are kept,
    and the fills issued are those of the blocks of the current edge whose
    origin is in [B] and passes the paint test, each one [rectfill] of the
    whole block in the colour of its origin, and no other. *)
Definition paints (B : Z -> Z -> Prop) (s s' : raster_state) : Prop :=
  frag_size s' = frag_size s /\ step s' = step s /\ over s' = over s
  /\ exists fills,
       screen s' = fills ++ screen s
       /\ forall d : rect,
            In d fills
            <-> exists x y,
                  B x y
                  /\ must_paint (over s) x y (frag_size s) = true
                  /\ d = Rect x y (x + frag_size s - 1) (y + frag_size s - 1)
                              (block_color x y).

(** [refined k scr]: every pixel of the visited tiles shows the colour of
    the origin of its block of edge [2^k]. *)
Definition refined (xxs yys xxe yye : Z) (k : nat) (scr : list rect) : Prop :=
  forall px py,
    in_tiles xxs yys xxe yye px py = true ->
    getpixel scr px py
    = Some (block_color (origin (pow2 k) px) (origin (pow2 k) py)).

(** A fill of one whole block of edge [f]: a single [rectfill] from the
    block's origin to its far corner, in the colour of the origin. *)
Definition whole_block (f : Z) (d : rect) : Prop :=
  d = Rect (x1 d) (y1 d) (x1 d + f - 1) (y1 d + f - 1)
           (block_color (x1 d) (y1 d)).

(** The fill of the 16-tile at [(x, y)]. *)
Definition tile_fill (x y : Z) : rect :=
  Rect x y (x + 16 - 1) (y + 16 - 1) (block_color x y).

End RasterizerNotions.

(** [set_default_pal] run on a table [pal] that may hold anything (the
    program calls it at start and again on the d key, after rotations). *)
Definition set_default_pal_on (pal : list RGB) : list RGB :=
  let pal := for_up 0x40 0
               (fun i => SetPalColor i (Z.of_nat i) 0 0) pal in
  let pal := for_up 0x40 0x40
               (fun i => SetPalColor i 0x3F (Z.of_nat i - 0x40) 0) pal in
  let pal := for_up 0x40 0x80
               (fun i => SetPalColor i 0x3F 0x3F (Z.of_nat i - 0xC0)) pal in
  for_up 0x40 0xC0 (fun i => SetPalColor i 0x3F 0x3F 0x3F) pal.

(** Entry [i] of the default table, read off the four loops. *)
Definition default_entry (i : nat) : RGB :=
  if (i <? 0x40)%nat then mkRGB (Z.of_nat i) 0 0
  else if (i <? 0x80)%nat then mkRGB 0x3F (Z.of_nat i - 0x40) 0
  else if (i <? 0xC0)%nat then mkRGB 0x3F 0x3F (Z.of_nat i + 0x40)
  else mkRGB 0x3F 0x3F 0x3F.

(** The display call of one step of the drawing loop of [orbit_iterator]:
    step [i], with the previous iterate [p] and the current one [q]. *)
Definition orbit_call (og : orbit_globals) (vp : viewport) (xxs yys itr : Z)
           (p q : float * float) (i : Z) : draw_call :=
  if negb (orbit_pixel og =? 0)
  then Putpixel (pixel_x vp xxs (fst q)) (pixel_y vp yys (snd q))
                (step_color og itr i)
  else Line (pixel_x vp xxs (fst p)) (pixel_y vp yys (snd p))
            (pixel_x vp xxs (fst q)) (pixel_y vp yys (snd q))
            (step_color og itr i).

(** The viewport of the browser's first frame, and two readings of [tact]:
    never set and always set. *)
Definition browser_view : viewport := fly_recompute Xmax Ymax default_view.
Definition never_set : nat -> Z := fun _ => 0.
Definition always_set : nat -> Z := fun _ => 1.

Section RasterizerStages.

Variable iter_function : float -> float -> Z.
Variable vp : viewport.
Variable tact_at : nat -> Z.

(** The first [n] passes of the loop of [view]: the pass of edge 16 with
    [over = 1], then those of edges 8, 4, ... with [over = 0], each started
    in the state the loop header gives it. *)
Fixpoint first_passes (n fuel : nat) (xxs yys xxe yye : Z) (s : raster_state)
  : option raster_state :=
  match n with
  | O => Some s
  | S n' =>
      s1 ← first_passes n' fuel xxs yys xxe yye s;
      pass iter_function vp tact_at fuel xxs yys xxe yye
           (start_pass (Z.shiftr 16 (Z.of_nat n'))
                       (match n' with O => 1 | S _ => 0 end) s1)
  end.

End RasterizerStages.

(** * Proof steps *)

(** Both comparisons of two finite values of one sign reduce to comparisons
    of the exponents and then of the mantissas; swapping the operands flips
    each of them. *)
Ltac flip_finite_compare ea eb ma mb :=
  rewrite (Z.compare_antisym ea eb);
  destruct (ea ?= eb); simpl; try congruence;
  change (Pos.compare_cont Eq mb ma) with (mb ?= ma)%positive;
  change (Pos.compare_cont Eq ma mb) with (ma ?= mb)%positive;
  rewrite (Pos.compare_antisym ma mb);
  destruct (ma ?= mb)%positive; simpl; congruence.

(** * Properties *)

(** ** Comparisons of doubles

    The comparison primitives are specified through [SFcompare]; the two
    order facts needed below are derived from that specification. *)

Lemma SFcompare_Lt_swap (a b : spec_float) :
  SFcompare a b = Some Lt -> SFcompare b a = Some Gt.
Proof.
  destruct a as [sa|sa| |sa ma ea], b as [sb|sb| |sb mb eb];
    try destruct sa; try destruct sb; simpl; try congruence;
    flip_finite_compare ea eb ma mb.
Qed.

Lemma SFcompare_refl_not_Lt (a : spec_float) : SFcompare a a <> Some Lt.
Proof.
  destruct a as [sa|sa| |sa ma ea]; try destruct sa; simpl; try congruence;
    rewrite Z.compare_refl;
    change (Pos.compare_cont Eq ma ma) with (ma ?= ma)%positive;
    rewrite Pos.compare_refl; simpl; congruence.
Qed.

Lemma double_ltb_not_leb (a b : float) :
  (a <? b)%float = true -> (b <=? a)%float = false.
Proof.
  rewrite ltb_spec, leb_spec. unfold SFltb, SFleb.
  destruct (SFcompare (Prim2SF a) (Prim2SF b)) as [[]|] eqn:Hc; try discriminate.
  intros _. now rewrite (SFcompare_Lt_swap _ _ Hc).
Qed.

Lemma double_ltb_asym (a b : float) :
  (a <? b)%float = true -> (b <? a)%float = false.
Proof.
  rewrite !ltb_spec. unfold SFltb.
  destruct (SFcompare (Prim2SF a) (Prim2SF b)) as [[]|] eqn:Hc; try discriminate.
  intros _. now rewrite (SFcompare_Lt_swap _ _ Hc).
Qed.

Lemma double_ltb_irrefl (a : float) : (a <? a)%float = false.
Proof.
  rewrite ltb_spec. unfold SFltb.
  pose proof (SFcompare_refl_not_Lt (Prim2SF a)) as H.
  destruct (SFcompare (Prim2SF a) (Prim2SF a)) as [[]|]; congruence.
Qed.

(** ** The escape-time loop *)

(** With fuel for the remaining count the loop returns; the result is the
    counter value at the first failed radius test, or the limit. *)
Lemma escape_loop_spec (limit : Z) (c : float * float) :
  forall (fuel : nat) (z : float * float) (i : Z),
    i < limit -> limit - i <= Z.of_nat fuel ->
    exists n, escape_loop fuel limit c z i = Some n
      /\ i <= n <= limit
      /\ (forall k : nat, i + Z.of_nat k < n ->
                          within_radius (orbit c z k) = true)
      /\ (n < limit -> within_radius (orbit c z (Z.to_nat (n - i))) = false).
Proof.
  induction fuel as [|fuel IH]; intros z i Hi Hfuel; [lia|].
  simpl. destruct (within_radius z) eqn:Hz.
  - destruct (Z.ltb_spec (i + 1) limit) as [Hlt|Hge].
    + destruct (IH (next_iterate c z) (i + 1)) as (n & Hn & Hr & Hin & Hout);
        [lia|lia|].
      exists n. split; [exact Hn|]. split; [lia|]. split.
      * intros [|k] Hk; [exact Hz|]. simpl. apply Hin. lia.
      * intros Hlim. specialize (Hout Hlim).
        replace (Z.to_nat (n - i)) with (S (Z.to_nat (n - (i + 1)))) by lia.
        exact Hout.
    + exists (i + 1). split; [reflexivity|]. split; [lia|]. split.
      * intros [|k] Hk; [exact Hz|lia].
      * lia.
  - exists i. split; [reflexivity|]. split; [lia|]. split.
    + intros k Hk. lia.
    + intros _. now rewrite Z.sub_diag.
Qed.

Lemma escape_loop_outside (fuel : nat) (limit : Z) (c z : float * float) (i : Z) :
  within_radius z = false -> escape_loop (S fuel) limit c z i = Some i.
Proof. intros Hz. simpl. now rewrite Hz. Qed.

Lemma field_iterator_spec (c z : float * float) :
  exists n, escape_loop (Z.to_nat ipp) ipp c z 0 = Some n
    /\ 0 <= n <= ipp
    /\ (forall k : nat, Z.of_nat k < n -> within_radius (orbit c z k) = true)
    /\ (n < ipp -> within_radius (orbit c z (Z.to_nat n)) = false).
Proof.
  destruct (escape_loop_spec ipp c (Z.to_nat ipp) z 0)
    as (n & Hn & Hr & Hin & Hout); [reflexivity|unfold ipp; lia|].
  exists n. repeat split; try tauto; try lia.
  intros Hlt. specialize (Hout Hlt). now rewrite Z.sub_0_r in Hout.
Qed.

(** C3, as the code has it: the result of [mandel_iterator] is the index of
    the first iterate (the point itself has index 0) whose radius test
    [|z|^2 <= 4] fails, or 255 if none of the first 255 fails.  Hence a point
    with [|point|^2 > 4] yields 0, and [(2,0)], which passes the test and
    whose first update [(6,0)] fails it, yields 1. *)
Theorem mandel_iterator_first_escape :
  (forall x y : float,
      exists n, mandel_iterator x y = Some n
        /\ 0 <= n <= ipp
        /\ (forall k : nat, Z.of_nat k < n ->
                            within_radius (orbit (x, y) (x, y) k) = true)
        /\ (n < ipp ->
            within_radius (orbit (x, y) (x, y) (Z.to_nat n)) = false))
  /\ (forall x y : float,
         (4 <? x * x + y * y)%float = true -> mandel_iterator x y = Some 0)
  /\ mandel_iterator 2 0 = Some 1.
Proof.
  split; [|split].
  - intros x y. apply field_iterator_spec.
  - intros x y Hout.
    apply (escape_loop_outside 254). unfold within_radius.
    apply double_ltb_not_leb. exact Hout.
  - vm_compute. reflexivity.
Qed.

(** C3 as stated fails: [(3,0)] has [|point|^2 = 9 > 4], and the loop exits
    on its first test, before the counter is incremented. *)
Lemma mandel_iterator_outside_is_zero :
  (4 <? 3 * 3 + 0 * 0)%float = true
  /\ exists n, mandel_iterator 3 0 = Some n /\ n <> 1.
Proof.
  split; [vm_compute; reflexivity|].
  exists 0. split; [vm_compute; reflexivity|lia].
Qed.

(** C4, as the code has it: both field iterators return, and the result
    lies in the closed range [0, ipp] = [0, 255]; it is [ipp] itself exactly
    when the first 255 iterates all pass the radius test.  [(0,0)] yields
    255. *)
Theorem field_iterators_range :
  (forall x y : float,
      exists n, mandel_iterator x y = Some n
        /\ 0 <= n <= 255
        /\ (n = ipp <->
            forall k : nat, (k < 255)%nat ->
                            within_radius (orbit (x, y) (x, y) k) = true))
  /\ (forall cx cy x y : float,
         exists n, julia_iterator cx cy x y = Some n
           /\ 0 <= n <= 255
           /\ (n = ipp <->
               forall k : nat, (k < 255)%nat ->
                               within_radius (orbit (cx, cy) (x, y) k) = true))
  /\ mandel_iterator 0 0 = Some 255.
Proof.
  assert (Hgen : forall c z,
             exists n, escape_loop (Z.to_nat ipp) ipp c z 0 = Some n
               /\ 0 <= n <= 255
               /\ (n = ipp <->
                   forall k : nat, (k < 255)%nat ->
                                   within_radius (orbit c z k) = true)).
  { intros c z. destruct (field_iterator_spec c z) as (n & Hn & Hr & Hin & Hout).
    exists n. split; [exact Hn|]. split; [exact Hr|]. split.
    - intros -> k Hk. apply Hin. unfold ipp. lia.
    - intros Hall. destruct (Z.eq_dec n ipp) as [|Hne]; [assumption|].
      assert (Hlt : n < ipp) by lia. specialize (Hout Hlt).
      rewrite Hall in Hout; [discriminate|]. unfold ipp in Hlt. lia. }
  split; [|split].
  - intros x y. apply Hgen.
  - intros cx cy x y. apply Hgen.
  - vm_compute. reflexivity.
Qed.

(** C4 as stated fails: the saturated result 255 is not below 255. *)
Lemma mandel_iterator_saturates_at_ipp :
  exists n, mandel_iterator 0 0 = Some n /\ (n <? 255) = false.
Proof. exists 255. split; vm_compute; reflexivity. Qed.

(** ** The viewport *)

(** C5: after the recomputation the two scales are the same double (and
    compare equal with [==] unless that double is a NaN); the common scale
    is one of the two raw scales and neither raw scale exceeds it; when the
    raw X scale is the greater, [ye] becomes [yu*h+ys] and [xe] is kept,
    otherwise [xe] becomes [xu*w+xs] and [ye] is kept; [xs] and [ys] never
    change. *)
Theorem fly_recompute_square_pixels (w h : Z) (v : viewport) :
  let v' := fly_recompute w h v in
  xu v' = yu v'
  /\ (PrimFloat.is_nan (xu v') = false -> (xu v' =? yu v')%float = true)
  /\ (xu v' = raw_xu w v \/ xu v' = raw_yu h v)
  /\ (xu v' <? raw_xu w v)%float = false
  /\ (xu v' <? raw_yu h v)%float = false
  /\ xs v' = xs v /\ ys v' = ys v
  /\ ((raw_yu h v <? raw_xu w v)%float = true ->
      ye v' = (yu v' * double_of_int h + ys v)%float /\ xe v' = xe v)
  /\ ((raw_yu h v <? raw_xu w v)%float = false ->
      xe v' = (xu v' * double_of_int w + xs v)%float /\ ye v' = ye v).
Proof.
  unfold fly_recompute. fold (raw_xu w v). fold (raw_yu h v).
  destruct (raw_yu h v <? raw_xu w v)%float eqn:Hcmp; simpl.
  - repeat split; try congruence.
    + unfold PrimFloat.is_nan. now intros ->%negb_false_iff.
    + now left.
    + apply double_ltb_irrefl.
    + now apply double_ltb_asym.
  - repeat split; try congruence.
    + unfold PrimFloat.is_nan. now intros ->%negb_false_iff.
    + now right.
    + apply double_ltb_irrefl.
Qed.

(** C6, as the code has it: from the default bounds at 1024x768 the raw Y
    scale 4/768 is the greater one, so it is [xe] that is recomputed, to
    [xu*1024+xs]; [xs], [ys] and [ye] keep their values, and the scales
    agree.  ([ye = 2] also equals [yu*768+ys] in double arithmetic.) *)
Theorem fly_recompute_default_view :
  let v' := fly_recompute Xmax Ymax default_view in
  xu v' = yu v'
  /\ (xu v' =? yu v')%float = true
  /\ yu v' = (4 / 768)%float
  /\ xe v' = (xu v' * 1024 + xs default_view)%float
  /\ xs v' = xs default_view
  /\ ys v' = ys default_view
  /\ ye v' = ye default_view
  /\ (ye v' =? yu v' * 768 + ys v')%float = true.
Proof. vm_compute. repeat split; reflexivity. Qed.

(** C6 as stated fails: [xe] does not keep its value 2 (it becomes
    3.33...), while [ye] is left at 2. *)
Lemma fly_recompute_default_moves_xe :
  let v' := fly_recompute Xmax Ymax default_view in
  (xe v' =? xe default_view)%float = false
  /\ (2 <? xe v')%float = true
  /\ ye v' = ye default_view.
Proof. vm_compute. repeat split; reflexivity. Qed.

(** ** Arithmetic of the block grid *)

Lemma pow2_pos (k : nat) : 0 < pow2 k.
Proof. unfold pow2. apply Z.pow_pos_nonneg; lia. Qed.

Lemma pow2_S (k : nat) : pow2 (S k) = 2 * pow2 k.
Proof. unfold pow2. rewrite Nat2Z.inj_succ, Z.pow_succ_r; lia. Qed.

Lemma pow2_shiftr (k : nat) : Z.shiftr (pow2 (S k)) 1 = pow2 k.
Proof.
  rewrite Z.shiftr_div_pow2 by lia. rewrite pow2_S.
  change (2 ^ 1) with 2. rewrite Z.mul_comm. apply Z.div_mul. lia.
Qed.

Lemma pow2_add (k j : nat) : pow2 (k + j) = pow2 k * pow2 j.
Proof. unfold pow2. rewrite Nat2Z.inj_add, Z.pow_add_r; lia. Qed.

Lemma pow2_divide (k j : nat) : (pow2 k | pow2 (k + j)).
Proof. exists (pow2 j). rewrite pow2_add. lia. Qed.

(** [x & ((l<<1)-1)] is [x mod 2l] when [l] is a power of two. *)
Lemma land_mask (x : Z) (k : nat) :
  Z.land x (Z.shiftl (pow2 k) 1 - 1) = x mod (2 * pow2 k).
Proof.
  rewrite Z.shiftl_mul_pow2 by lia. change (2 ^ 1) with 2.
  rewrite (Z.mul_comm (pow2 k) 2), <- pow2_S. unfold pow2.
  rewrite <- Z.land_ones by lia. f_equal.
Qed.

Lemma origin_bounds (f p : Z) :
  0 < f -> origin f p <= p < origin f p + f.
Proof.
  intros Hf. unfold origin.
  pose proof (Z.mul_div_le p f Hf). pose proof (Z.mul_succ_div_gt p f Hf). lia.
Qed.

Lemma origin_divide (f p : Z) : (f | origin f p).
Proof. exists (p / f). unfold origin. lia. Qed.

(** A coordinate inside an aligned block has that block's origin. *)
Lemma origin_of_block (f x p : Z) :
  0 < f -> (f | x) -> x <= p < x + f -> origin f p = x.
Proof.
  intros Hf [q ->] Hp. unfold origin.
  assert (p / f = q) as ->; [|lia].
  symmetry. apply (Z.div_unique p f q (p - q * f)); lia.
Qed.

Lemma origin_1 (p : Z) : origin 1 p = p.
Proof. unfold origin. rewrite Z.div_1_r. lia. Qed.

(** A block origin that is also on the twice coarser grid is the origin of
    the coarser block. *)
Lemma origin_coarser (f p : Z) :
  0 < f -> origin f p mod (2 * f) = 0 -> origin (2 * f) p = origin f p.
Proof.
  intros Hf Hal. pose proof (origin_bounds f p Hf).
  apply origin_of_block; [lia| |lia].
  apply Z.mod_divide; [lia|exact Hal].
Qed.

Lemma origin_ge (f x p : Z) :
  0 < f -> (f | x) -> x <= p -> x <= origin f p.
Proof.
  intros Hf [q ->] Hp. unfold origin.
  assert (q <= p / f) by (apply Z.div_le_lower_bound; lia).
  nia.
Qed.

(** ** What a pass does to the pixels *)

Lemma covers_block (x y l c px py : Z) :
  covers (Rect x y (x + l - 1) (y + l - 1) c) px py = in_square x y l px py.
Proof.
  unfold covers, in_square. simpl.
  replace (px <=? x + l - 1) with (px <? x + l) by
    (destruct (Z.ltb_spec px (x + l)), (Z.leb_spec px (x + l - 1)); lia).
  replace (py <=? y + l - 1) with (py <? y + l) by
    (destruct (Z.ltb_spec py (y + l)), (Z.leb_spec py (y + l - 1)); lia).
  reflexivity.
Qed.

Lemma in_square_iff (x y l px py : Z) :
  in_square x y l px py = true <-> (x <= px < x + l /\ y <= py < y + l).
Proof.
  unfold in_square. rewrite !andb_true_iff, !Z.leb_le, !Z.ltb_lt. lia.
Qed.

Lemma in_row_iff (x y xxe px py : Z) :
  in_row x y xxe px py = true
  <-> (x <= px /\ origin 16 px < xxe /\ y <= py < y + 16).
Proof.
  unfold in_row. rewrite !andb_true_iff, !Z.leb_le, !Z.ltb_lt. lia.
Qed.

Lemma in_tiles_iff (x y xxe yye px py : Z) :
  in_tiles x y xxe yye px py = true
  <-> (x <= px /\ origin 16 px < xxe /\ y <= py /\ origin 16 py < yye).
Proof.
  unfold in_tiles. rewrite !andb_true_iff, !Z.leb_le, !Z.ltb_lt. lia.
Qed.

Lemma bool_eq_iff (a b : bool) : (a = true <-> b = true) -> a = b.
Proof. destruct a, b; intuition congruence. Qed.

(** A square of edge [2l] is its four quadrants. *)
Lemma in_square_quadrants (x y l px py : Z) :
  0 <= l ->
  in_square x y (2 * l) px py
  = in_square x y l px py || in_square (x + l) y l px py
    || in_square (x + l) (y + l) l px py || in_square x (y + l) l px py.
Proof.
  intros Hl. apply bool_eq_iff.
  rewrite !orb_true_iff, !in_square_iff. lia.
Qed.

Lemma in_row_first (x y xxe px py : Z) :
  (16 | x) -> x < xxe ->
  in_row x y xxe px py
  = in_square x y 16 px py || in_row (x + 16) y xxe px py.
Proof.
  intros Hx Hlt. apply bool_eq_iff.
  rewrite orb_true_iff, in_square_iff, !in_row_iff.
  pose proof (origin_bounds 16 px ltac:(lia)) as Hb.
  split.
  - intros (H1 & H2 & H3). destruct (Z.lt_ge_cases px (x + 16)); [left|right]; lia.
  - intros [(H1 & H2)|(H1 & H2 & H3)]; [|lia].
    rewrite (origin_of_block 16 x px); (assumption || lia).
Qed.

Lemma in_row_empty (x y xxe px py : Z) :
  (16 | x) -> xxe <= x -> in_row x y xxe px py = false.
Proof.
  intros Hx Hge. apply not_true_is_false. rewrite in_row_iff.
  intros (H1 & H2 & _).
  pose proof (origin_ge 16 x px ltac:(lia) Hx H1). lia.
Qed.

Lemma in_tiles_first (x y xxe yye px py : Z) :
  (16 | y) -> y < yye ->
  in_tiles x y xxe yye px py
  = in_row x y xxe px py || in_tiles x (y + 16) xxe yye px py.
Proof.
  intros Hy Hlt. apply bool_eq_iff.
  rewrite orb_true_iff, in_row_iff, !in_tiles_iff.
  pose proof (origin_bounds 16 py ltac:(lia)) as Hb.
  split.
  - intros (H1 & H2 & H3 & H4).
    destruct (Z.lt_ge_cases py (y + 16)); [left|right]; lia.
  - intros [(H1 & H2 & H3)|(H1 & H2 & H3 & H4)]; [|lia].
    rewrite (origin_of_block 16 y py); (assumption || lia).
Qed.

Lemma in_tiles_empty (x y xxe yye px py : Z) :
  (16 | y) -> yye <= y -> in_tiles x y xxe yye px py = false.
Proof.
  intros Hy Hge. apply not_true_is_false. rewrite in_tiles_iff.
  intros (_ & _ & H1 & H2).
  pose proof (origin_ge 16 y py ltac:(lia) Hy H1). lia.
Qed.

(** Every pixel of the rectangle lies in a visited tile. *)
Lemma in_tiles_rectangle (xxs yys xxe yye px py : Z) :
  xxs <= px < xxe -> yys <= py < yye ->
  in_tiles xxs yys xxe yye px py = true.
Proof.
  intros Hx Hy. rewrite in_tiles_iff.
  pose proof (origin_bounds 16 px ltac:(lia)).
  pose proof (origin_bounds 16 py ltac:(lia)). lia.
Qed.

(** ** The rasterizer *)

Section RasterizerFacts.

Variable iter_function : float -> float -> Z.
Variable vp : viewport.
Variable tact_at : nat -> Z.

Local Abbreviation block_color := (block_color iter_function vp).
Local Abbreviation recursor := (recursor iter_function vp tact_at).
Local Abbreviation for_x := (for_x iter_function vp tact_at).
Local Abbreviation for_y := (for_y iter_function vp tact_at).
Local Abbreviation pass := (pass iter_function vp tact_at).
Local Abbreviation for_frag_size := (for_frag_size iter_function vp tact_at).
Local Abbreviation view := (view iter_function vp tact_at).
Local Abbreviation repaints := (repaints iter_function vp).
Local Abbreviation refined := (refined iter_function vp).
Local Abbreviation whole_block := (whole_block iter_function vp).
Local Abbreviation tile_fill := (tile_fill iter_function vp).

Lemma repaints_nothing (R : Z -> Z -> bool) (s : raster_state) :
  (forall px py, R px py = false) -> repaints R s s.
Proof.
  intros HR. repeat split. intros px py. now rewrite HR.
Qed.

Lemma repaints_seq (R1 R2 R : Z -> Z -> bool) (s s1 s2 : raster_state) :
  repaints R1 s s1 -> repaints R2 s1 s2 ->
  (forall px py, R px py = R1 px py || R2 px py) ->
  repaints R s s2.
Proof.
  intros (Hf1 & Hs1 & Ho1 & Hp1) (Hf2 & Hs2 & Ho2 & Hp2) HR.
  repeat split; try congruence.
  intros px py. rewrite Hp2, Hp1, HR, Hf1, Ho1.
  destruct (R1 px py), (R2 px py); simpl; try reflexivity;
    now destruct (must_paint _ _ _ _).
Qed.

Lemma repaints_ext (R R' : Z -> Z -> bool) (s s' : raster_state) :
  repaints R s s' -> (forall px py, R' px py = R px py) -> repaints R' s s'.
Proof.
  intros (Hf & Hs & Ho & Hp) HR. repeat split; try assumption.
  intros px py. now rewrite HR, Hp.
Qed.

Lemma recursor_unfold (fuel : nat) (x y l : Z) (s : raster_state) :
  recursor (S fuel) x y l s
  = if l =? frag_size s then
      Some (if must_paint (over s) x y l
            then rectfill x y (x + l - 1) (y + l - 1) (block_color x y) s
            else s)
    else
      if negb (tact_at (tact_reads s) =? 0) then Some (snd (read_tact tact_at s))
      else
        let l := Z.shiftr l 1 in
        s ← recursor fuel x y l (snd (read_tact tact_at s));
        s ← recursor fuel (x + l) y l s;
        s ← recursor fuel (x + l) (y + l) l s;
        recursor fuel x (y + l) l s.
Proof. reflexivity. Qed.

(** A call on a terminal block: one fill or none, by the paint test, and
    [tact] is not read. *)
Lemma recursor_terminal (fuel : nat) (x y : Z) (s : raster_state) :
  recursor (S fuel) x y (frag_size s) s
  = Some (if must_paint (over s) x y (frag_size s)
          then rectfill x y (x + frag_size s - 1) (y + frag_size s - 1)
                        (block_color x y) s
          else s).
Proof. rewrite recursor_unfold. now rewrite Z.eqb_refl. Qed.

Lemma terminal_repaints (x y : Z) (s : raster_state) :
  0 < frag_size s -> (frag_size s | x) -> (frag_size s | y) ->
  repaints (in_square x y (frag_size s)) s
           (if must_paint (over s) x y (frag_size s)
            then rectfill x y (x + frag_size s - 1) (y + frag_size s - 1)
                          (block_color x y) s
            else s).
Proof.
  intros Hf Hx Hy.
  assert (Hin : forall px py, in_square x y (frag_size s) px py = true ->
                              origin (frag_size s) px = x
                              /\ origin (frag_size s) py = y).
  { intros px py [Hpx Hpy]%in_square_iff.
    split; apply origin_of_block; assumption. }
  destruct (must_paint (over s) x y (frag_size s)) eqn:Hp.
  - repeat split. intros px py. simpl. rewrite covers_block.
    destruct (in_square x y (frag_size s) px py) eqn:Hsq; simpl; [|reflexivity].
    destruct (Hin px py Hsq) as [-> ->]. now rewrite Hp.
  - repeat split. intros px py.
    destruct (in_square x y (frag_size s) px py) eqn:Hsq; simpl; [|reflexivity].
    destruct (Hin px py Hsq) as [-> ->]. now rewrite Hp.
Qed.

(** With the flag clear (or nothing to subdivide) a call on an aligned
    square of edge [2^(k+j)] returns, given fuel beyond the depth [j], and
    repaints that square. *)
Lemma recursor_repaints (k : nat) :
  forall (j fuel : nat) (x y : Z) (s : raster_state),
    (j < fuel)%nat ->
    frag_size s = pow2 k -> (pow2 k | x) -> (pow2 k | y) ->
    (j = 0%nat \/ forall n, tact_at n = 0) ->
    exists s', recursor fuel x y (pow2 (k + j)) s = Some s'
      /\ repaints (in_square x y (pow2 (k + j))) s s'
      /\ (j = 0%nat -> tact_reads s' = tact_reads s).
Proof.
  induction j as [|j IH]; intros fuel x y s Hfuel Hfs Hx Hy Hq.
  - destruct fuel as [|fuel]; [lia|].
    rewrite Nat.add_0_r, <- Hfs, recursor_terminal.
    eexists. split; [reflexivity|]. split.
    + apply terminal_repaints; rewrite Hfs; auto using pow2_pos.
    + intros _. now destruct (must_paint _ _ _ _).
  - destruct fuel as [|fuel]; [lia|].
    destruct Hq as [Hq|Hq]; [discriminate|].
    pose proof (pow2_pos k) as Hk. pose proof (pow2_pos (k + j)) as Hkj.
    assert (Hl : pow2 (k + S j) = 2 * pow2 (k + j))
      by (now rewrite Nat.add_succ_r, pow2_S).
    assert (Hdiv : (pow2 k | pow2 (k + j))) by apply pow2_divide.
    rewrite recursor_unfold.
    destruct (Z.eqb_spec (pow2 (k + S j)) (frag_size s)) as [Heq|_].
    { rewrite Hfs, Hl, pow2_add in Heq. pose proof (pow2_pos j). nia. }
    rewrite Hq. simpl negb. cbv zeta.
    replace (Z.shiftr (pow2 (k + S j)) 1) with (pow2 (k + j))
      by (now rewrite Nat.add_succ_r, pow2_shiftr).
    set (s0 := snd (read_tact tact_at s)).
    assert (H0 : repaints (fun _ _ => false) s s0).
    { repeat split. }
    destruct (IH fuel x y s0) as (s1 & E1 & R1 & _);
      [lia|exact Hfs|exact Hx|exact Hy|now right|].
    assert (Hfs1 : frag_size s1 = pow2 k) by (destruct R1 as (-> & _); exact Hfs).
    destruct (IH fuel (x + pow2 (k + j)) y s1) as (s2 & E2 & R2 & _);
      [lia|exact Hfs1|now apply Z.divide_add_r|exact Hy|now right|].
    assert (Hfs2 : frag_size s2 = pow2 k) by (destruct R2 as (-> & _); exact Hfs1).
    destruct (IH fuel (x + pow2 (k + j)) (y + pow2 (k + j)) s2)
      as (s3 & E3 & R3 & _);
      [lia|exact Hfs2|now apply Z.divide_add_r|now apply Z.divide_add_r
      |now right|].
    assert (Hfs3 : frag_size s3 = pow2 k) by (destruct R3 as (-> & _); exact Hfs2).
    destruct (IH fuel x (y + pow2 (k + j)) s3) as (s4 & E4 & R4 & _);
      [lia|exact Hfs3|exact Hx|now apply Z.divide_add_r|now right|].
    rewrite E1. simpl. rewrite E2. simpl. rewrite E3. simpl. rewrite E4.
    exists s4. split; [reflexivity|]. split; [|discriminate].
    set (l := pow2 (k + j)) in *.
    assert (A1 : repaints (in_square x y l) s s1)
      by (eapply repaints_seq; [exact H0|exact R1|reflexivity]).
    assert (A2 : repaints (fun px py => in_square x y l px py
                                        || in_square (x + l) y l px py) s s2)
      by (eapply repaints_seq; [exact A1|exact R2|reflexivity]).
    assert (A3 : repaints (fun px py => in_square x y l px py
                                        || in_square (x + l) y l px py
                                        || in_square (x + l) (y + l) l px py)
                          s s3)
      by (eapply repaints_seq; [exact A2|exact R3|reflexivity]).
    eapply repaints_seq; [exact A3|exact R4|].
    intros px py. rewrite Hl. apply in_square_quadrants. lia.
Qed.

Lemma for_x_unfold (n fuel : nat) (x y xxe : Z) (s : raster_state) :
  for_x n fuel x y xxe s
  = if x <? xxe then
      match n with
      | O => None
      | S n' => s ← recursor fuel x y (step s) s;
                for_x n' fuel (x + step s) y xxe s
      end
    else Some s.
Proof. destruct n; reflexivity. Qed.

Lemma for_y_unfold (n fuel : nat) (xxs y xxe yye : Z) (s : raster_state) :
  for_y n fuel xxs y xxe yye s
  = if y <? yye then
      match n with
      | O => None
      | S n' => s ← for_x fuel fuel xxs y xxe s;
                for_y n' fuel xxs (y + step s) xxe yye s
      end
    else Some s.
Proof. destruct n; reflexivity. Qed.

Lemma for_frag_size_unfold (n fuel : nat) (xxs yys xxe yye : Z)
      (s : raster_state) :
  for_frag_size n fuel xxs yys xxe yye s
  = if 1 <=? frag_size s then
      match n with
      | O => None
      | S n' =>
          s ← pass fuel xxs yys xxe yye s;
          for_frag_size n' fuel xxs yys xxe yye
                        (set_over 0 (set_frag_size (Z.shiftr (frag_size s) 1) s))
      end
    else Some s.
Proof. destruct n; reflexivity. Qed.

Lemma pow2_4 : pow2 4 = 16.
Proof. reflexivity. Qed.

Lemma pow2_divide_16 (k : nat) (x : Z) : (k <= 4)%nat -> (16 | x) -> (pow2 k | x).
Proof.
  intros Hk Hx. apply Z.divide_trans with (2 := Hx).
  rewrite <- pow2_4. replace 4%nat with (k + (4 - k))%nat by lia.
  apply pow2_divide.
Qed.

(** A row of tiles, for the pass of edge [2^k]: in the first pass ([k = 4])
    whatever [tact] reads, in the later ones while it reads zero. *)
Lemma for_x_repaints (k fuel : nat) (y xxe : Z) :
  (k <= 4)%nat -> (4 - k < fuel)%nat -> (16 | y) ->
  (k = 4%nat \/ forall n, tact_at n = 0) ->
  forall (n : nat) (x : Z) (s : raster_state),
    xxe - x <= Z.of_nat n ->
    frag_size s = pow2 k -> step s = 16 -> (16 | x) ->
    exists s', for_x n fuel x y xxe s = Some s'
      /\ repaints (in_row x y xxe) s s'
      /\ (k = 4%nat -> tact_reads s' = tact_reads s).
Proof.
  intros Hk Hfuel Hy Hq.
  induction n as [|n IH]; intros x s Hn Hfs Hst Hx; rewrite for_x_unfold.
  - destruct (Z.ltb_spec x xxe) as [Hlt|Hge]; [lia|].
    exists s. split; [reflexivity|]. split; [|reflexivity].
    apply repaints_nothing. intros px py. now apply in_row_empty.
  - destruct (Z.ltb_spec x xxe) as [Hlt|Hge].
    + destruct (recursor_repaints k (4 - k) fuel x y s) as (s1 & E1 & R1 & T1);
        [lia|exact Hfs|now apply pow2_divide_16|now apply pow2_divide_16
        |destruct Hq; [left; lia|now right]|].
      replace (k + (4 - k))%nat with 4%nat in E1, R1 by lia.
      rewrite pow2_4 in E1, R1.
      rewrite Hst, E1. simpl.
      assert (Hst1 : step s1 = 16) by (destruct R1 as (_ & -> & _); exact Hst).
      assert (Hfs1 : frag_size s1 = pow2 k)
        by (destruct R1 as (-> & _); exact Hfs).
      rewrite Hst1.
      destruct (IH (x + 16) s1) as (s2 & E2 & R2 & T2);
        [lia|exact Hfs1|exact Hst1|apply Z.divide_add_r; [exact Hx|reflexivity]|].
      exists s2. split; [exact E2|]. split.
      * eapply repaints_seq; [exact R1|exact R2|].
        intros px py. now apply in_row_first.
      * intros H4. rewrite (T2 H4). apply T1. lia.
    + exists s. split; [reflexivity|]. split; [|reflexivity].
      apply repaints_nothing. intros px py. now apply in_row_empty.
Qed.

Lemma for_y_repaints (k fuel : nat) (xxs xxe yye : Z) :
  (k <= 4)%nat -> (4 - k < fuel)%nat -> (16 | xxs) ->
  xxe - xxs <= Z.of_nat fuel ->
  (k = 4%nat \/ forall n, tact_at n = 0) ->
  forall (n : nat) (y : Z) (s : raster_state),
    yye - y <= Z.of_nat n ->
    frag_size s = pow2 k -> step s = 16 -> (16 | y) ->
    exists s', for_y n fuel xxs y xxe yye s = Some s'
      /\ repaints (in_tiles xxs y xxe yye) s s'
      /\ (k = 4%nat -> tact_reads s' = tact_reads s).
Proof.
  intros Hk Hfuel Hxs Hw Hq.
  induction n as [|n IH]; intros y s Hn Hfs Hst Hy; rewrite for_y_unfold.
  - destruct (Z.ltb_spec y yye) as [Hlt|Hge]; [lia|].
    exists s. split; [reflexivity|]. split; [|reflexivity].
    apply repaints_nothing. intros px py. now apply in_tiles_empty.
  - destruct (Z.ltb_spec y yye) as [Hlt|Hge].
    + destruct (for_x_repaints k fuel y xxe Hk Hfuel Hy Hq fuel xxs s)
        as (s1 & E1 & R1 & T1); [exact Hw|exact Hfs|exact Hst|exact Hxs|].
      rewrite E1. simpl.
      assert (Hst1 : step s1 = 16) by (destruct R1 as (_ & -> & _); exact Hst).
      assert (Hfs1 : frag_size s1 = pow2 k)
        by (destruct R1 as (-> & _); exact Hfs).
      rewrite Hst1.
      destruct (IH (y + 16) s1) as (s2 & E2 & R2 & T2);
        [lia|exact Hfs1|exact Hst1|apply Z.divide_add_r; [exact Hy|reflexivity]|].
      exists s2. split; [exact E2|]. split.
      * eapply repaints_seq; [exact R1|exact R2|].
        intros px py. now apply in_tiles_first.
      * intros H4. rewrite (T2 H4). now apply T1.
    + exists s. split; [reflexivity|]. split; [|reflexivity].
      apply repaints_nothing. intros px py. now apply in_tiles_empty.
Qed.

(** One whole pass over a rectangle whose origin is on the 16-grid. *)
Lemma pass_repaints (k fuel : nat) (xxs yys xxe yye : Z) (s : raster_state) :
  (k <= 4)%nat -> (4 - k < fuel)%nat ->
  (16 | xxs) -> (16 | yys) ->
  xxe - xxs <= Z.of_nat fuel -> yye - yys <= Z.of_nat fuel ->
  (k = 4%nat \/ forall n, tact_at n = 0) ->
  frag_size s = pow2 k -> step s = 16 ->
  exists s', pass fuel xxs yys xxe yye s = Some s'
    /\ repaints (in_tiles xxs yys xxe yye) s s'
    /\ (k = 4%nat -> tact_reads s' = tact_reads s).
Proof.
  intros Hk Hfuel Hxs Hys Hw Hh Hq Hfs Hst.
  exact (for_y_repaints k fuel xxs xxe yye Hk Hfuel Hxs Hw Hq
                        fuel yys s Hh Hfs Hst Hys).
Qed.

Lemma must_paint_over (ov x y l : Z) : ov <> 0 -> must_paint ov x y l = true.
Proof.
  intros Hov. unfold must_paint.
  destruct (Z.eqb_spec ov 0); [contradiction|reflexivity].
Qed.

Lemma must_paint_aligned (x y : Z) (k : nat) :
  must_paint 0 x y (pow2 k) = false ->
  x mod (2 * pow2 k) = 0 /\ y mod (2 * pow2 k) = 0.
Proof.
  unfold must_paint. rewrite !land_mask. simpl.
  destruct (Z.eqb_spec (x mod (2 * pow2 k)) 0),
           (Z.eqb_spec (y mod (2 * pow2 k)) 0); simpl; try discriminate.
  now intros _.
Qed.

Lemma first_pass_refined (xxs yys xxe yye : Z) (s s' : raster_state) :
  repaints (in_tiles xxs yys xxe yye) s s' ->
  over s <> 0 -> frag_size s = pow2 4 ->
  refined xxs yys xxe yye 4 (screen s').
Proof.
  intros (_ & _ & _ & Hp) Hov Hfs px py Hin.
  now rewrite Hp, Hin, must_paint_over, Hfs.
Qed.

(** The skip rule is sound: a skipped block already shows the right colour,
    that of the coarser block with the same origin. *)
Lemma next_pass_refined (xxs yys xxe yye : Z) (k : nat)
      (s s' : raster_state) :
  repaints (in_tiles xxs yys xxe yye) s s' ->
  over s = 0 -> frag_size s = pow2 k ->
  refined xxs yys xxe yye (S k) (screen s) ->
  refined xxs yys xxe yye k (screen s').
Proof.
  intros (_ & _ & _ & Hp) Hov Hfs Hprev px py Hin.
  rewrite Hp, Hin, Hov, Hfs. simpl.
  destruct (must_paint 0 _ _ _) eqn:Hmp; [reflexivity|].
  apply must_paint_aligned in Hmp as [Hx Hy].
  rewrite (Hprev px py Hin), pow2_S.
  rewrite !origin_coarser; auto using pow2_pos.
Qed.

(** The passes of edge [2^k] down to 1, run with [over = 0] on a screen
    refined to edge [2^(k+1)], leave it refined to single pixels. *)
Lemma for_frag_size_refines (fuel : nat) (xxs yys xxe yye : Z) :
  (5 <= fuel)%nat -> (16 | xxs) -> (16 | yys) ->
  xxe - xxs <= Z.of_nat fuel -> yye - yys <= Z.of_nat fuel ->
  (forall n, tact_at n = 0) ->
  forall (k n : nat) (s : raster_state),
    (k < 4)%nat -> (k < n)%nat ->
    frag_size s = pow2 k -> step s = 16 -> over s = 0 ->
    refined xxs yys xxe yye (S k) (screen s) ->
    exists s', for_frag_size n fuel xxs yys xxe yye s = Some s'
      /\ refined xxs yys xxe yye 0 (screen s').
Proof.
  intros Hfuel Hxs Hys Hw Hh Hq.
  induction k as [|k IH]; intros n s Hk Hn Hfs Hst Hov Href;
    (destruct n as [|n]; [lia|]); rewrite for_frag_size_unfold.
  - pose proof (pow2_pos 0) as Hp0.
    destruct (Z.leb_spec 1 (frag_size s)) as [_|Hlt]; [|lia].
    destruct (pass_repaints 0 fuel xxs yys xxe yye s) as (s1 & E1 & R1 & _);
      [lia|lia|assumption|assumption|assumption|assumption|now right
      |assumption|assumption|].
    rewrite E1. simpl.
    assert (Hfs1 : frag_size s1 = 1) by (destruct R1 as (-> & _); exact Hfs).
    rewrite Hfs1, for_frag_size_unfold. simpl.
    eexists. split; [reflexivity|]. simpl.
    now apply (next_pass_refined xxs yys xxe yye 0 s s1).
  - pose proof (pow2_pos (S k)) as HpS.
    destruct (Z.leb_spec 1 (frag_size s)) as [_|Hlt]; [|lia].
    destruct (pass_repaints (S k) fuel xxs yys xxe yye s)
      as (s1 & E1 & R1 & _);
      [lia|lia|assumption|assumption|assumption|assumption|now right
      |assumption|assumption|].
    rewrite E1. simpl.
    assert (Hfs1 : frag_size s1 = pow2 (S k))
      by (destruct R1 as (-> & _); exact Hfs).
    assert (Hst1 : step s1 = 16) by (destruct R1 as (_ & -> & _); exact Hst).
    rewrite Hfs1, pow2_shiftr.
    apply IH; simpl; try assumption; try lia.
    now apply (next_pass_refined xxs yys xxe yye (S k) s s1).
Qed.

Lemma view_unfold (fuel : nat) (xxs yys xxe yye : Z) (s : raster_state) :
  view fuel xxs yys xxe yye s
  = for_frag_size fuel fuel xxs yys xxe yye
                  (RasterState 16 16 1 (tact_reads s) (screen s)).
Proof. reflexivity. Qed.

(** C1, for rectangles as the program draws them (origin on the 16-grid;
    every call passes the origin (0,0)): with [tact] reading zero throughout,
    [view] returns and every pixel of the rectangle shows
    [iter_function( xs+x*xu, ys+y*yu )]. *)
Theorem view_renders_every_pixel (fuel : nat) (xxs yys xxe yye : Z)
        (s : raster_state) :
  (16 | xxs) -> (16 | yys) ->
  (forall n, tact_at n = 0) ->
  (5 <= fuel)%nat ->
  xxe - xxs <= Z.of_nat fuel -> yye - yys <= Z.of_nat fuel ->
  exists s', view fuel xxs yys xxe yye s = Some s'
    /\ forall x y, xxs <= x < xxe -> yys <= y < yye ->
         getpixel (screen s') x y
         = Some (iter_function (xs vp + double_of_int x * xu vp)%float
                               (ys vp + double_of_int y * yu vp)%float).
Proof.
  intros Hxs Hys Hq Hfuel Hw Hh.
  rewrite view_unfold. destruct fuel as [|n]; [lia|].
  rewrite for_frag_size_unfold. simpl frag_size.
  change (1 <=? 16) with true. cbv iota.
  set (s1 := RasterState 16 16 1 (tact_reads s) (screen s)).
  destruct (pass_repaints 4 (S n) xxs yys xxe yye s1) as (s2 & E2 & R2 & _);
    [lia|lia|assumption|assumption|assumption|assumption|now left
    |reflexivity|reflexivity|].
  rewrite E2. simpl.
  assert (Hfs2 : frag_size s2 = 16) by (now destruct R2 as (-> & _)).
  assert (Hst2 : step s2 = 16) by (now destruct R2 as (_ & -> & _)).
  rewrite Hfs2. change (Z.shiftr 16 1) with (pow2 3).
  destruct (for_frag_size_refines (S n) xxs yys xxe yye Hfuel Hxs Hys Hw Hh Hq
              3%nat n (set_over 0 (set_frag_size (pow2 3) s2)))
    as (s' & E' & Href); try reflexivity; try assumption; try lia.
  { simpl. now apply (first_pass_refined xxs yys xxe yye s1 s2). }
  exists s'. split; [exact E'|].
  intros x y Hx Hy.
  rewrite (Href x y) by now apply in_tiles_rectangle.
  change (pow2 0) with 1. now rewrite !origin_1.
Qed.

(** *** Facts that hold whatever [tact] reads *)

Lemma emits_refl (P : rect -> Prop) (s : raster_state) : emits P s s.
Proof. repeat split. exists []. split; [reflexivity|constructor]. Qed.

Lemma emits_trans (P : rect -> Prop) (s s1 s2 : raster_state) :
  emits P s s1 -> emits P s1 s2 -> emits P s s2.
Proof.
  intros (Hf1 & Hs1 & Ho1 & seg1 & E1 & F1) (Hf2 & Hs2 & Ho2 & seg2 & E2 & F2).
  repeat split; try congruence.
  exists (seg2 ++ seg1). split.
  - now rewrite E2, E1, app_assoc.
  - apply Forall_app. now split.
Qed.

Lemma recursor_emits :
  forall (fuel : nat) (x y l : Z) (s s' : raster_state),
    recursor fuel x y l s = Some s' ->
    emits (whole_block (frag_size s)) s s'.
Proof.
  induction fuel as [|fuel IH]; intros x y l s s' Hrun; [discriminate|].
  rewrite recursor_unfold in Hrun.
  destruct (Z.eqb_spec l (frag_size s)) as [->|Hne].
  - injection Hrun as <-. destruct (must_paint _ _ _ _).
    + repeat split. eexists [_]. split; [reflexivity|].
      constructor; [reflexivity|constructor].
    + apply emits_refl.
  - assert (H0 : emits (whole_block (frag_size s)) s (snd (read_tact tact_at s)))
      by (repeat split; exists []; split; [reflexivity|constructor]).
    destruct (negb (tact_at (tact_reads s) =? 0)).
    + injection Hrun as <-. exact H0.
    + cbv zeta in Hrun.
      destruct (recursor fuel x y _ _) as [s1|] eqn:E1; [|discriminate].
      simpl in Hrun.
      destruct (recursor fuel (x + _) y _ s1) as [s2|] eqn:E2; [|discriminate].
      simpl in Hrun.
      destruct (recursor fuel (x + _) (y + _) _ s2) as [s3|] eqn:E3;
        [|discriminate].
      simpl in Hrun.
      apply IH in E1, E2, E3, Hrun.
      assert (F1 : frag_size s1 = frag_size s) by (now destruct E1 as (-> & _)).
      assert (F2 : frag_size s2 = frag_size s) by (destruct E2 as (-> & _); exact F1).
      assert (F3 : frag_size s3 = frag_size s) by (destruct E3 as (-> & _); exact F2).
      rewrite F1 in E2. rewrite F2 in E3. rewrite F3 in Hrun.
      eauto using emits_trans.
Qed.

Lemma for_x_emits (fuel : nat) (y xxe : Z) :
  forall (n : nat) (x : Z) (s s' : raster_state),
    for_x n fuel x y xxe s = Some s' ->
    emits (whole_block (frag_size s)) s s'.
Proof.
  induction n as [|n IH]; intros x s s' Hrun; rewrite for_x_unfold in Hrun;
    destruct (x <? xxe); try discriminate;
    try (injection Hrun as <-; apply emits_refl).
  destruct (recursor fuel x y (step s) s) as [s1|] eqn:E1; [|discriminate].
  simpl in Hrun. apply recursor_emits in E1. apply IH in Hrun.
  assert (F1 : frag_size s1 = frag_size s) by (now destruct E1 as (-> & _)).
  rewrite F1 in Hrun. eauto using emits_trans.
Qed.

Lemma for_y_emits (fuel : nat) (xxs xxe yye : Z) :
  forall (n : nat) (y : Z) (s s' : raster_state),
    for_y n fuel xxs y xxe yye s = Some s' ->
    emits (whole_block (frag_size s)) s s'.
Proof.
  induction n as [|n IH]; intros y s s' Hrun; rewrite for_y_unfold in Hrun;
    destruct (y <? yye); try discriminate;
    try (injection Hrun as <-; apply emits_refl).
  destruct (for_x fuel fuel xxs y xxe s) as [s1|] eqn:E1; [|discriminate].
  simpl in Hrun. apply for_x_emits in E1. apply IH in Hrun.
  assert (F1 : frag_size s1 = frag_size s) by (now destruct E1 as (-> & _)).
  rewrite F1 in Hrun. eauto using emits_trans.
Qed.

Lemma pass_emits (fuel : nat) (xxs yys xxe yye : Z) (s s' : raster_state) :
  pass fuel xxs yys xxe yye s = Some s' ->
  emits (whole_block (frag_size s)) s s'.
Proof. apply for_y_emits. Qed.

(** Termination of [recursor] on a square of edge [2^(k+j)]: fuel beyond
    the depth [j] suffices, cancelled or not. *)
Lemma recursor_returns (k : nat) :
  forall (j fuel : nat) (x y : Z) (s : raster_state),
    (j < fuel)%nat -> frag_size s = pow2 k ->
    exists s', recursor fuel x y (pow2 (k + j)) s = Some s'.
Proof.
  induction j as [|j IH]; intros fuel x y s Hfuel Hfs;
    (destruct fuel as [|fuel]; [lia|]).
  - rewrite Nat.add_0_r, <- Hfs, recursor_terminal. eauto.
  - rewrite recursor_unfold.
    destruct (Z.eqb_spec (pow2 (k + S j)) (frag_size s)) as [Heq|_]; [eauto|].
    destruct (negb (tact_at (tact_reads s) =? 0)); [eauto|]. cbv zeta.
    replace (Z.shiftr (pow2 (k + S j)) 1) with (pow2 (k + j))
      by (now rewrite Nat.add_succ_r, pow2_shiftr).
    destruct (IH fuel x y (snd (read_tact tact_at s))) as (s1 & E1);
      [lia|exact Hfs|].
    pose proof (recursor_emits _ _ _ _ _ _ E1) as (F1 & _).
    destruct (IH fuel (x + pow2 (k + j)) y s1) as (s2 & E2);
      [lia|rewrite F1; exact Hfs|].
    pose proof (recursor_emits _ _ _ _ _ _ E2) as (F2 & _).
    destruct (IH fuel (x + pow2 (k + j)) (y + pow2 (k + j)) s2) as (s3 & E3);
      [lia|rewrite F2, F1; exact Hfs|].
    pose proof (recursor_emits _ _ _ _ _ _ E3) as (F3 & _).
    destruct (IH fuel x (y + pow2 (k + j)) s3) as (s4 & E4);
      [lia|rewrite F3, F2, F1; exact Hfs|].
    rewrite E1. simpl. rewrite E2. simpl. rewrite E3. simpl. eauto.
Qed.

Lemma for_x_returns (k fuel : nat) (y xxe : Z) :
  (k <= 4)%nat -> (4 - k < fuel)%nat ->
  forall (n : nat) (x : Z) (s : raster_state),
    xxe - x <= Z.of_nat n -> frag_size s = pow2 k -> step s = 16 ->
    exists s', for_x n fuel x y xxe s = Some s'.
Proof.
  intros Hk Hfuel.
  induction n as [|n IH]; intros x s Hn Hfs Hst; rewrite for_x_unfold;
    destruct (Z.ltb_spec x xxe) as [Hlt|Hge]; eauto; [lia|].
  destruct (recursor_returns k (4 - k) fuel x y s) as (s1 & E1);
    [lia|exact Hfs|].
  replace (k + (4 - k))%nat with 4%nat in E1 by lia. rewrite pow2_4 in E1.
  rewrite Hst, E1. simpl.
  pose proof (recursor_emits _ _ _ _ _ _ E1) as (F1 & S1 & _).
  apply IH; [rewrite S1, Hst; lia|congruence|congruence].
Qed.

Lemma for_y_returns (k fuel : nat) (xxs xxe yye : Z) :
  (k <= 4)%nat -> (4 - k < fuel)%nat -> xxe - xxs <= Z.of_nat fuel ->
  forall (n : nat) (y : Z) (s : raster_state),
    yye - y <= Z.of_nat n -> frag_size s = pow2 k -> step s = 16 ->
    exists s', for_y n fuel xxs y xxe yye s = Some s'.
Proof.
  intros Hk Hfuel Hw.
  induction n as [|n IH]; intros y s Hn Hfs Hst; rewrite for_y_unfold;
    destruct (Z.ltb_spec y yye) as [Hlt|Hge]; eauto; [lia|].
  destruct (for_x_returns k fuel y xxe Hk Hfuel fuel xxs s) as (s1 & E1);
    [exact Hw|exact Hfs|exact Hst|].
  rewrite E1. simpl.
  pose proof (for_x_emits _ _ _ _ _ _ _ E1) as (F1 & S1 & _).
  apply IH; [rewrite S1, Hst; lia|congruence|congruence].
Qed.

(** All the passes from edge [2^k] down: they return, and every fill they
    issue is a whole block of one of the five edges. *)
Lemma for_frag_size_blocks (fuel : nat) (xxs yys xxe yye : Z) :
  (5 <= fuel)%nat ->
  xxe - xxs <= Z.of_nat fuel -> yye - yys <= Z.of_nat fuel ->
  forall (k n : nat) (s : raster_state),
    (k <= 4)%nat -> (k < n)%nat -> frag_size s = pow2 k -> step s = 16 ->
    exists s' seg, for_frag_size n fuel xxs yys xxe yye s = Some s'
      /\ screen s' = seg ++ screen s
      /\ Forall (fun d => exists e, (e <= 4)%nat /\ whole_block (pow2 e) d) seg.
Proof.
  intros Hfuel Hw Hh.
  induction k as [|k IH]; intros n s Hk Hn Hfs Hst;
    (destruct n as [|n]; [lia|]); rewrite for_frag_size_unfold.
  - pose proof (pow2_pos 0).
    destruct (Z.leb_spec 1 (frag_size s)) as [_|Hlt]; [|lia].
    destruct (for_y_returns 0 fuel xxs xxe yye Hk ltac:(lia) Hw fuel yys s)
      as (s1 & E1); [exact Hh|exact Hfs|exact Hst|].
    change (for_y fuel fuel xxs yys xxe yye s) with (pass fuel xxs yys xxe yye s)
      in E1.
    rewrite E1. simpl.
    pose proof (pass_emits _ _ _ _ _ _ _ E1) as (F1 & S1 & O1 & seg & Hseg & HF).
    rewrite F1, Hfs, for_frag_size_unfold. simpl.
    exists (set_over 0 (set_frag_size 0 s1)), seg.
    split; [reflexivity|]. split; [exact Hseg|].
    eapply Forall_impl; [exact HF|]. intros d Hd. exists 0%nat.
    split; [lia|]. now rewrite <- Hfs.
  - pose proof (pow2_pos (S k)).
    destruct (Z.leb_spec 1 (frag_size s)) as [_|Hlt]; [|lia].
    destruct (for_y_returns (S k) fuel xxs xxe yye Hk ltac:(lia) Hw fuel yys s)
      as (s1 & E1); [exact Hh|exact Hfs|exact Hst|].
    change (for_y fuel fuel xxs yys xxe yye s) with (pass fuel xxs yys xxe yye s)
      in E1.
    rewrite E1. simpl.
    pose proof (pass_emits _ _ _ _ _ _ _ E1) as (F1 & S1 & O1 & seg & Hseg & HF).
    rewrite F1, Hfs, pow2_shiftr.
    destruct (IH n (set_over 0 (set_frag_size (pow2 k) s1)))
      as (s' & seg' & E' & Hseg' & HF'); [lia|lia|reflexivity|simpl; congruence|].
    exists s', (seg' ++ seg). split; [exact E'|]. split.
    + rewrite Hseg'. simpl. now rewrite Hseg, app_assoc.
    + apply Forall_app. split; [exact HF'|].
      eapply Forall_impl; [exact HF|]. intros d Hd. exists (S k).
      split; [lia|]. now rewrite <- Hfs.
Qed.

(** *** The first pass *)

Lemma first_pass_for_x (fuel : nat) (y xxe : Z) :
  (1 <= fuel)%nat ->
  forall (n : nat) (x : Z) (s : raster_state),
    xxe - x <= Z.of_nat n ->
    frag_size s = 16 -> step s = 16 -> over s <> 0 ->
    exists s', for_x n fuel x y xxe s = Some s'
      /\ tact_reads s' = tact_reads s
      /\ (forall d, In d (screen s) -> In d (screen s'))
      /\ forall a, 0 <= a -> x + 16 * a < xxe ->
                   In (tile_fill (x + 16 * a) y) (screen s').
Proof.
  intros Hfuel. destruct fuel as [|fuel]; [lia|].
  induction n as [|n IH]; intros x s Hn Hfs Hst Hov; rewrite for_x_unfold;
    destruct (Z.ltb_spec x xxe) as [Hlt|Hge]; try lia;
    try (exists s; repeat split; [auto|intros; lia]).
  assert (Hrec : recursor (S fuel) x y (step s) s
                 = Some (rectfill x y (x + 16 - 1) (y + 16 - 1)
                                  (block_color x y) s)).
  { pose proof (recursor_terminal fuel x y s) as H.
    rewrite Hfs, must_paint_over in H by exact Hov. now rewrite Hst. }
  rewrite Hrec. simpl mbind. cbn [step rectfill]. rewrite Hst.
  set (s1 := rectfill _ _ _ _ _ s).
  destruct (IH (x + 16) s1) as (s' & E' & T' & M' & I');
    [lia|exact Hfs|exact Hst|exact Hov|].
  exists s'. split; [exact E'|]. split; [exact T'|]. split.
  - intros d Hd. apply M'. now right.
  - intros a Ha Hlt'. destruct (Z.eq_dec a 0) as [->|Hne].
    + apply M'. left. now replace (x + 16 * 0) with x by lia.
    + replace (x + 16 * a) with (x + 16 + 16 * (a - 1)) by lia.
      apply I'; lia.
Qed.

Lemma first_pass_for_y (fuel : nat) (xxs xxe yye : Z) :
  (1 <= fuel)%nat -> xxe - xxs <= Z.of_nat fuel ->
  forall (n : nat) (y : Z) (s : raster_state),
    yye - y <= Z.of_nat n ->
    frag_size s = 16 -> step s = 16 -> over s <> 0 ->
    exists s', for_y n fuel xxs y xxe yye s = Some s'
      /\ tact_reads s' = tact_reads s
      /\ (forall d, In d (screen s) -> In d (screen s'))
      /\ forall a b, 0 <= a -> xxs + 16 * a < xxe ->
                     0 <= b -> y + 16 * b < yye ->
                     In (tile_fill (xxs + 16 * a) (y + 16 * b)) (screen s').
Proof.
  intros Hfuel Hw.
  induction n as [|n IH]; intros y s Hn Hfs Hst Hov; rewrite for_y_unfold;
    destruct (Z.ltb_spec y yye) as [Hlt|Hge]; try lia;
    try (exists s; repeat split; [auto|intros; lia]).
  destruct (first_pass_for_x fuel y xxe Hfuel fuel xxs s Hw Hfs Hst Hov)
    as (s1 & E1 & T1 & M1 & I1).
  rewrite E1. simpl mbind.
  pose proof (for_x_emits _ _ _ _ _ _ _ E1) as (F1 & S1 & O1 & _).
  destruct (IH (y + step s1) s1) as (s' & E' & T' & M' & I');
    [lia|congruence|congruence|congruence|].
  exists s'. split; [exact E'|]. split; [congruence|]. split.
  - auto.
  - intros a b Ha Hlta Hb Hltb. destruct (Z.eq_dec b 0) as [->|Hne].
    + apply M'. replace (y + 16 * 0) with y by lia. now apply I1.
    + replace (y + 16 * b) with (y + step s1 + 16 * (b - 1)) by lia.
      apply I'; lia.
Qed.

(** [view] is its first pass, of edge 16 with [over = 1], and the rest. *)
Lemma view_first_pass (n : nat) (xxs yys xxe yye : Z) (s : raster_state) :
  view (S n) xxs yys xxe yye s
  = s1 ← pass (S n) xxs yys xxe yye (start_pass 16 1 s);
    for_frag_size n (S n) xxs yys xxe yye
                  (set_over 0 (set_frag_size (Z.shiftr (frag_size s1) 1) s1)).
Proof. reflexivity. Qed.

Lemma for_frag_size_step (n fuel : nat) (xxs yys xxe yye f ov : Z)
      (s : raster_state) :
  1 <= f ->
  for_frag_size (S n) fuel xxs yys xxe yye (start_pass f ov s)
  = s1 ← pass fuel xxs yys xxe yye (start_pass f ov s);
    for_frag_size n fuel xxs yys xxe yye (start_pass (Z.shiftr f 1) 0 s1).
Proof.
  intros Hf. rewrite for_frag_size_unfold. simpl frag_size.
  destruct (Z.leb_spec 1 f) as [_|]; [|lia].
  destruct (pass fuel xxs yys xxe yye (start_pass f ov s)) as [s1|] eqn:E1;
    [|reflexivity].
  simpl. apply pass_emits in E1 as (F1 & S1 & _). simpl in F1, S1.
  f_equal. unfold set_over, set_frag_size, start_pass. simpl.
  now rewrite F1, S1.
Qed.

Lemma for_frag_size_passes (m F : nat) (xxs yys xxe yye : Z)
      (s : raster_state) :
  for_frag_size (S (S (S (S (S m))))) F xxs yys xxe yye (start_pass 16 1 s)
  = s1 ← pass F xxs yys xxe yye (start_pass 16 1 s);
    s2 ← pass F xxs yys xxe yye (start_pass 8 0 s1);
    s3 ← pass F xxs yys xxe yye (start_pass 4 0 s2);
    s4 ← pass F xxs yys xxe yye (start_pass 2 0 s3);
    s5 ← pass F xxs yys xxe yye (start_pass 1 0 s4);
    Some (start_pass 0 0 s5).
Proof.
  rewrite for_frag_size_step by lia.
  destruct (pass F _ _ _ _ (start_pass 16 1 s)) as [s1|]; [cbn [mbind option_bind]|reflexivity].
  change (Z.shiftr 16 1) with 8. rewrite for_frag_size_step by lia.
  destruct (pass F _ _ _ _ (start_pass 8 0 s1)) as [s2|]; [cbn [mbind option_bind]|reflexivity].
  change (Z.shiftr 8 1) with 4. rewrite for_frag_size_step by lia.
  destruct (pass F _ _ _ _ (start_pass 4 0 s2)) as [s3|]; [cbn [mbind option_bind]|reflexivity].
  change (Z.shiftr 4 1) with 2. rewrite for_frag_size_step by lia.
  destruct (pass F _ _ _ _ (start_pass 2 0 s3)) as [s4|]; [cbn [mbind option_bind]|reflexivity].
  change (Z.shiftr 2 1) with 1. rewrite for_frag_size_step by lia.
  destruct (pass F _ _ _ _ (start_pass 1 0 s4)) as [s5|]; [cbn [mbind option_bind]|reflexivity].
  rewrite for_frag_size_unfold. reflexivity.
Qed.

(** The five passes of [view], with the edge and the [over] flag of each. *)
Lemma view_passes (m : nat) (xxs yys xxe yye : Z) (s : raster_state) :
  view (5 + m) xxs yys xxe yye s
  = s1 ← pass (5 + m) xxs yys xxe yye (start_pass 16 1 s);
    s2 ← pass (5 + m) xxs yys xxe yye (start_pass 8 0 s1);
    s3 ← pass (5 + m) xxs yys xxe yye (start_pass 4 0 s2);
    s4 ← pass (5 + m) xxs yys xxe yye (start_pass 2 0 s3);
    s5 ← pass (5 + m) xxs yys xxe yye (start_pass 1 0 s4);
    Some (start_pass 0 0 s5).
Proof.
  rewrite view_unfold. apply (for_frag_size_passes m (5 + m)).
Qed.

Lemma must_paint_misaligned (x y : Z) (k : nat) :
  must_paint 0 x y (pow2 k) = true
  <-> (~ (2 * pow2 k | x) \/ ~ (2 * pow2 k | y)).
Proof.
  pose proof (pow2_pos k) as Hk.
  unfold must_paint. rewrite !land_mask. simpl.
  rewrite <- !(Z.mod_divide _ (2 * pow2 k)) by lia.
  destruct (Z.eqb_spec (x mod (2 * pow2 k)) 0),
           (Z.eqb_spec (y mod (2 * pow2 k)) 0); simpl; intuition congruence.
Qed.

(** ** The fills of a pass *)

Local Abbreviation paints := (paints iter_function vp).

Lemma paints_nothing (B : Z -> Z -> Prop) (s : raster_state) :
  (forall x y, ~ B x y) -> paints B s s.
Proof.
  intros HB. split; [reflexivity|]. split; [reflexivity|].
  split; [reflexivity|]. exists []. split; [reflexivity|].
  intros d. split; [intros []|].
  intros (x & y & Hxy & _). now destruct (HB x y).
Qed.

Lemma paints_seq (B1 B2 B : Z -> Z -> Prop) (s s1 s2 : raster_state) :
  paints B1 s s1 -> paints B2 s1 s2 ->
  (forall x y, B x y <-> B1 x y \/ B2 x y) ->
  paints B s s2.
Proof.
  intros (Hf1 & Hs1 & Ho1 & f1 & E1 & I1) (Hf2 & Hs2 & Ho2 & f2 & E2 & I2) HB.
  rewrite Hf1, Ho1 in I2.
  split; [congruence|]. split; [congruence|]. split; [congruence|].
  exists (f2 ++ f1). split; [rewrite E2, E1; now rewrite List.app_assoc|].
  intros d. rewrite in_app_iff, I1, I2. split.
  - intros [(x & y & H & Hp)|(x & y & H & Hp)]; exists x, y;
      (split; [apply HB; tauto|exact Hp]).
  - intros (x & y & H & Hp). apply HB in H. destruct H as [H|H];
      [right|left]; exists x, y; (split; [exact H|exact Hp]).
Qed.

Lemma paints_ext (B B' : Z -> Z -> Prop) (s s' : raster_state) :
  paints B s s' -> (forall x y, B' x y <-> B x y) -> paints B' s s'.
Proof.
  intros (Hf & Hs & Ho & f & E & Hin) HB.
  split; [exact Hf|]. split; [exact Hs|]. split; [exact Ho|].
  exists f. split; [exact E|]. intros d. rewrite Hin.
  split; intros (x & y & H & Hp); exists x, y;
    (split; [apply HB; exact H|exact Hp]).
Qed.

Lemma terminal_paints (x y : Z) (s : raster_state) :
  paints (fun u v => u = x /\ v = y) s
         (if must_paint (over s) x y (frag_size s)
          then rectfill x y (x + frag_size s - 1) (y + frag_size s - 1)
                        (block_color x y) s
          else s).
Proof.
  destruct (must_paint (over s) x y (frag_size s)) eqn:Hp.
  - split; [reflexivity|]. split; [reflexivity|]. split; [reflexivity|].
    eexists [_]. split; [reflexivity|]. intros d. split.
    + intros [<-|[]]. exists x, y. auto.
    + intros (u & v & [-> ->] & _ & ->). now left.
  - split; [reflexivity|]. split; [reflexivity|]. split; [reflexivity|].
    exists []. split; [reflexivity|]. intros d. split; [intros []|].
    intros (u & v & [-> ->] & Hp' & _). congruence.
Qed.

Lemma block_at_1 (l x u : Z) : block_at l 1 x u <-> u = x.
Proof.
  split.
  - intros (a & Ha & ->). replace a with 0 by lia. lia.
  - intros ->. exists 0. lia.
Qed.

Lemma block_at_double (l n x u : Z) :
  0 <= n ->
  (block_at l (2 * n) x u
   <-> block_at l n x u \/ block_at l n (x + l * n) u).
Proof.
  intros Hn. split.
  - intros (a & Ha & ->). destruct (Z_lt_le_dec a n) as [Hlt|Hge].
    + left. exists a. lia.
    + right. exists (a - n). split; [lia|ring].
  - intros [(a & Ha & ->)|(a & Ha & ->)].
    + exists a. lia.
    + exists (a + n). split; [lia|ring].
Qed.

Lemma tile_at_empty (x xxe t : Z) : xxe <= x -> ~ tile_at x xxe t.
Proof. intros Hge (i & Hi & -> & Hlt). lia. Qed.

Lemma tile_at_first (P : Z -> Prop) (x xxe : Z) :
  x < xxe ->
  ((exists t, tile_at x xxe t /\ P t)
   <-> P x \/ exists t, tile_at (x + 16) xxe t /\ P t).
Proof.
  intros Hlt. split.
  - intros (t & (i & Hi & -> & Ht) & HP).
    destruct (Z.eq_dec i 0) as [->|Hne].
    + left. now replace (x + 16 * 0) with x in HP by lia.
    + right. exists (x + 16 * i). split; [|exact HP].
      exists (i - 1). lia.
  - intros [HP|(t & (i & Hi & -> & Ht) & HP)].
    + exists x. split; [|exact HP]. exists 0. lia.
    + exists (x + 16 + 16 * i). split; [|exact HP]. exists (i + 1). lia.
Qed.

Lemma div_16_pow2 (k : nat) : (k <= 4)%nat -> 16 / pow2 k = pow2 (4 - k).
Proof.
  intros Hk. do 5 (destruct k as [|k]; [reflexivity|]). lia.
Qed.

(** With the flag clear (or nothing to subdivide) a call on a square of
    edge [2^(k+j)] returns, given fuel beyond the depth [j], and issues the
    fills of those of its [2^j * 2^j] terminal blocks that pass the paint
    test. *)
Lemma recursor_paints (k : nat) :
  forall (j fuel : nat) (x y : Z) (s : raster_state),
    (j < fuel)%nat -> frag_size s = pow2 k ->
    (j = 0%nat \/ forall n, tact_at n = 0) ->
    exists s', recursor fuel x y (pow2 (k + j)) s = Some s'
      /\ paints (fun u v => block_at (pow2 k) (pow2 j) x u
                            /\ block_at (pow2 k) (pow2 j) y v) s s'.
Proof.
  induction j as [|j IH]; intros fuel x y s Hfuel Hfs Hq.
  - destruct fuel as [|fuel]; [lia|].
    rewrite Nat.add_0_r, <- Hfs, recursor_terminal.
    eexists. split; [reflexivity|].
    eapply paints_ext; [apply terminal_paints|].
    intros u v. change (pow2 0) with 1. now rewrite !block_at_1.
  - destruct fuel as [|fuel]; [lia|].
    destruct Hq as [Hq|Hq]; [discriminate|].
    pose proof (pow2_pos k) as Hk. pose proof (pow2_pos j) as Hj.
    assert (Hl : pow2 (k + S j) = 2 * pow2 (k + j))
      by (now rewrite Nat.add_succ_r, pow2_S).
    rewrite recursor_unfold.
    destruct (Z.eqb_spec (pow2 (k + S j)) (frag_size s)) as [Heq|_].
    { rewrite Hfs, Hl, pow2_add in Heq. nia. }
    rewrite Hq. simpl negb. cbv zeta.
    replace (Z.shiftr (pow2 (k + S j)) 1) with (pow2 (k + j))
      by (now rewrite Nat.add_succ_r, pow2_shiftr).
    set (s0 := snd (read_tact tact_at s)).
    assert (H0 : paints (fun _ _ => False) s s0).
    { split; [reflexivity|]. split; [reflexivity|]. split; [reflexivity|].
      exists []. split; [reflexivity|]. intros d.
      split; [intros []|]. now intros (u & v & [] & _). }
    destruct (IH fuel x y s0) as (s1 & E1 & R1); [lia|exact Hfs|now right|].
    assert (Hfs1 : frag_size s1 = pow2 k) by (destruct R1 as (-> & _); exact Hfs).
    destruct (IH fuel (x + pow2 (k + j)) y s1) as (s2 & E2 & R2);
      [lia|exact Hfs1|now right|].
    assert (Hfs2 : frag_size s2 = pow2 k) by (destruct R2 as (-> & _); exact Hfs1).
    destruct (IH fuel (x + pow2 (k + j)) (y + pow2 (k + j)) s2)
      as (s3 & E3 & R3); [lia|exact Hfs2|now right|].
    assert (Hfs3 : frag_size s3 = pow2 k) by (destruct R3 as (-> & _); exact Hfs2).
    destruct (IH fuel x (y + pow2 (k + j)) s3) as (s4 & E4 & R4);
      [lia|exact Hfs3|now right|].
    rewrite E1. simpl. rewrite E2. simpl. rewrite E3. simpl. rewrite E4.
    exists s4. split; [reflexivity|].
    rewrite pow2_add in R2, R3, R4.
    set (l := pow2 k) in *. set (n := pow2 j) in *.
    assert (A1 : paints (fun u v => block_at l n x u /\ block_at l n y v) s s1)
      by (eapply paints_seq; [exact H0|exact R1|intros u v; tauto]).
    assert (A2 : paints (fun u v =>
                           (block_at l n x u /\ block_at l n y v)
                           \/ (block_at l n (x + l * n) u /\ block_at l n y v))
                        s s2)
      by (eapply paints_seq; [exact A1|exact R2|intros u v; tauto]).
    assert (A3 : paints (fun u v =>
                           ((block_at l n x u /\ block_at l n y v)
                            \/ (block_at l n (x + l * n) u /\ block_at l n y v))
                           \/ (block_at l n (x + l * n) u
                               /\ block_at l n (y + l * n) v))
                        s s3)
      by (eapply paints_seq; [exact A2|exact R3|intros u v; tauto]).
    eapply paints_seq; [exact A3|exact R4|].
    intros u v. rewrite pow2_S. fold n.
    rewrite !block_at_double by lia. tauto.
Qed.

(** A row of tiles, for the pass of edge [2^k]: in the first pass ([k = 4])
    whatever [tact] reads, in the later ones while it reads zero. *)
Lemma for_x_paints (k fuel : nat) (y xxe : Z) :
  (k <= 4)%nat -> (4 - k < fuel)%nat ->
  (k = 4%nat \/ forall n, tact_at n = 0) ->
  forall (n : nat) (x : Z) (s : raster_state),
    xxe - x <= Z.of_nat n ->
    frag_size s = pow2 k -> step s = 16 ->
    exists s', for_x n fuel x y xxe s = Some s'
      /\ paints (fun u v =>
                   (exists t, tile_at x xxe t
                              /\ block_at (pow2 k) (pow2 (4 - k)) t u)
                   /\ block_at (pow2 k) (pow2 (4 - k)) y v) s s'.
Proof.
  intros Hk Hfuel Hq.
  induction n as [|n IH]; intros x s Hn Hfs Hst; rewrite for_x_unfold.
  - destruct (Z.ltb_spec x xxe) as [Hlt|Hge]; [lia|].
    exists s. split; [reflexivity|]. apply paints_nothing.
    intros u v [(t & Ht & _) _]. now apply (tile_at_empty x xxe t).
  - destruct (Z.ltb_spec x xxe) as [Hlt|Hge].
    + destruct (recursor_paints k (4 - k) fuel x y s) as (s1 & E1 & R1);
        [lia|exact Hfs|destruct Hq; [left; lia|now right]|].
      replace (k + (4 - k))%nat with 4%nat in E1 by lia.
      rewrite pow2_4 in E1. rewrite Hst, E1. simpl.
      assert (Hst1 : step s1 = 16) by (destruct R1 as (_ & -> & _); exact Hst).
      assert (Hfs1 : frag_size s1 = pow2 k)
        by (destruct R1 as (-> & _); exact Hfs).
      rewrite Hst1.
      destruct (IH (x + 16) s1) as (s2 & E2 & R2); [lia|exact Hfs1|exact Hst1|].
      exists s2. split; [exact E2|].
      eapply paints_seq; [exact R1|exact R2|].
      intros u v.
      pose proof (tile_at_first
                    (fun t => block_at (pow2 k) (pow2 (4 - k)) t u) x xxe Hlt)
        as G.
      cbv beta in G. tauto.
    + exists s. split; [reflexivity|]. apply paints_nothing.
      intros u v [(t & Ht & _) _]. now apply (tile_at_empty x xxe t).
Qed.

Lemma for_y_paints (k fuel : nat) (xxs xxe yye : Z) :
  (k <= 4)%nat -> (4 - k < fuel)%nat ->
  xxe - xxs <= Z.of_nat fuel ->
  (k = 4%nat \/ forall n, tact_at n = 0) ->
  forall (n : nat) (y : Z) (s : raster_state),
    yye - y <= Z.of_nat n ->
    frag_size s = pow2 k -> step s = 16 ->
    exists s', for_y n fuel xxs y xxe yye s = Some s'
      /\ paints (fun u v =>
                   (exists t, tile_at xxs xxe t
                              /\ block_at (pow2 k) (pow2 (4 - k)) t u)
                   /\ (exists t, tile_at y yye t
                                 /\ block_at (pow2 k) (pow2 (4 - k)) t v))
                s s'.
Proof.
  intros Hk Hfuel Hw Hq.
  induction n as [|n IH]; intros y s Hn Hfs Hst; rewrite for_y_unfold.
  - destruct (Z.ltb_spec y yye) as [Hlt|Hge]; [lia|].
    exists s. split; [reflexivity|]. apply paints_nothing.
    intros u v [_ (t & Ht & _)]. now apply (tile_at_empty y yye t).
  - destruct (Z.ltb_spec y yye) as [Hlt|Hge].
    + destruct (for_x_paints k fuel y xxe Hk Hfuel Hq fuel xxs s)
        as (s1 & E1 & R1); [exact Hw|exact Hfs|exact Hst|].
      rewrite E1. simpl.
      assert (Hst1 : step s1 = 16) by (destruct R1 as (_ & -> & _); exact Hst).
      assert (Hfs1 : frag_size s1 = pow2 k)
        by (destruct R1 as (-> & _); exact Hfs).
      rewrite Hst1.
      destruct (IH (y + 16) s1) as (s2 & E2 & R2); [lia|exact Hfs1|exact Hst1|].
      exists s2. split; [exact E2|].
      eapply paints_seq; [exact R1|exact R2|].
      intros u v.
      pose proof (tile_at_first
                    (fun t => block_at (pow2 k) (pow2 (4 - k)) t v) y yye Hlt)
        as G.
      cbv beta in G. tauto.
    + exists s. split; [reflexivity|]. apply paints_nothing.
      intros u v [_ (t & Ht & _)]. now apply (tile_at_empty y yye t).
Qed.

(** One whole pass: the fills are those of the terminal blocks of the
    visited tiles that pass the paint test. *)
Lemma pass_paints (k fuel : nat) (xxs yys xxe yye : Z) (s : raster_state) :
  (k <= 4)%nat -> (4 - k < fuel)%nat ->
  xxe - xxs <= Z.of_nat fuel -> yye - yys <= Z.of_nat fuel ->
  (k = 4%nat \/ forall n, tact_at n = 0) ->
  frag_size s = pow2 k -> step s = 16 ->
  exists s', pass fuel xxs yys xxe yye s = Some s'
    /\ paints (pass_block (pow2 k) xxs yys xxe yye) s s'.
Proof.
  intros Hk Hfuel Hw Hh Hq Hfs Hst.
  destruct (for_y_paints k fuel xxs xxe yye Hk Hfuel Hw Hq fuel yys s
                         Hh Hfs Hst) as (s' & E & R).
  exists s'. split; [exact E|].
  eapply paints_ext; [exact R|].
  intros u v. unfold pass_block, grid_at. now rewrite div_16_pow2.
Qed.


(** C8: a call that is to subdivide and finds [tact] set returns with the
    screen as it was; whatever [tact] reads, [view] returns and everything
    it draws is a sequence of whole-block fills, each one [rectfill] of a
    block of edge 16, 8, 4, 2 or 1; and [view] does not depend on the values
    of [frag_size], [step] and [over] it finds: it starts again at edge 16
    with [over = 1]. *)
Theorem cancel_leaves_whole_blocks :
  (forall (fuel : nat) (x y l : Z) (s : raster_state),
      l <> frag_size s -> tact_at (tact_reads s) <> 0 ->
      exists s', recursor (S fuel) x y l s = Some s'
                 /\ screen s' = screen s)
  /\ (forall (fuel : nat) (xxs yys xxe yye : Z) (s : raster_state),
         (5 <= fuel)%nat ->
         xxe - xxs <= Z.of_nat fuel -> yye - yys <= Z.of_nat fuel ->
         exists s' seg,
           view fuel xxs yys xxe yye s = Some s'
           /\ screen s' = seg ++ screen s
           /\ Forall (fun d => exists e, (e <= 4)%nat
                                         /\ whole_block (pow2 e) d) seg)
  /\ (forall (fuel : nat) (xxs yys xxe yye f st ov : Z) (s : raster_state),
         view fuel xxs yys xxe yye
              (RasterState f st ov (tact_reads s) (screen s))
         = view fuel xxs yys xxe yye s)
  /\ (forall (fuel : nat) (xxs yys xxe yye : Z) (s : raster_state),
         view fuel xxs yys xxe yye s
         = for_frag_size fuel fuel xxs yys xxe yye (start_pass 16 1 s)).
Proof.
  split; [|split; [|split]].
  - intros fuel x y l s Hl Ht. rewrite recursor_unfold.
    destruct (Z.eqb_spec l (frag_size s)); [contradiction|].
    destruct (Z.eqb_spec (tact_at (tact_reads s)) 0); [contradiction|].
    simpl. eauto.
  - intros fuel xxs yys xxe yye s Hfuel Hw Hh. rewrite view_unfold.
    destruct (for_frag_size_blocks fuel xxs yys xxe yye Hfuel Hw Hh 4 fuel
                (RasterState 16 16 1 (tact_reads s) (screen s)))
      as (s' & seg & E' & Hseg & HF); [lia|lia|reflexivity|reflexivity|].
    exists s', seg. auto.
  - reflexivity.
  - reflexivity.
Qed.

(** C10, as the code has it: a call on a terminal block never reads [tact]:
    it fills the block or not by the paint test alone, and always fills it
    when [over] is set; [view] begins with the pass of edge 16 under
    [over = 1]; and that pass, whatever [tact] reads, returns without having
    read it and has filled every 16-tile of the rectangle. *)
Theorem first_pass_ignores_cancel :
  (forall (fuel : nat) (x y : Z) (s : raster_state),
      recursor (S fuel) x y (frag_size s) s
      = Some (if must_paint (over s) x y (frag_size s)
              then rectfill x y (x + frag_size s - 1) (y + frag_size s - 1)
                            (block_color x y) s
              else s))
  /\ (forall (fuel : nat) (x y : Z) (s : raster_state),
         over s <> 0 ->
         recursor (S fuel) x y (frag_size s) s
         = Some (rectfill x y (x + frag_size s - 1) (y + frag_size s - 1)
                          (block_color x y) s))
  /\ (forall (n : nat) (xxs yys xxe yye : Z) (s : raster_state),
         view (S n) xxs yys xxe yye s
         = s1 ← pass (S n) xxs yys xxe yye (start_pass 16 1 s);
           for_frag_size n (S n) xxs yys xxe yye
             (set_over 0 (set_frag_size (Z.shiftr (frag_size s1) 1) s1)))
  /\ (forall (fuel : nat) (xxs yys xxe yye : Z) (s : raster_state),
         (1 <= fuel)%nat ->
         xxe - xxs <= Z.of_nat fuel -> yye - yys <= Z.of_nat fuel ->
         exists s1,
           pass fuel xxs yys xxe yye (start_pass 16 1 s) = Some s1
           /\ tact_reads s1 = tact_reads s
           /\ forall a b, 0 <= a -> xxs + 16 * a < xxe ->
                          0 <= b -> yys + 16 * b < yye ->
                          In (tile_fill (xxs + 16 * a) (yys + 16 * b))
                             (screen s1)).
Proof.
  split; [|split; [|split]].
  - apply recursor_terminal.
  - intros fuel x y s Hov. now rewrite recursor_terminal, must_paint_over.
  - apply view_first_pass.
  - intros fuel xxs yys xxe yye s Hfuel Hw Hh.
    destruct (first_pass_for_y fuel xxs xxe yye Hfuel Hw fuel yys
                               (start_pass 16 1 s))
      as (s1 & E1 & T1 & _ & I1); [exact Hh|reflexivity|reflexivity|simpl; lia|].
    exists s1. split; [exact E1|]. split; [exact T1|exact I1].
Qed.

End RasterizerFacts.

(** ** The rasterizer on concrete inputs *)

(** [view_renders_every_pixel] on the top-left tile of the Mandelbrot
    browser's first frame. *)
Lemma view_renders_every_pixel_witness :
  exists s',
    view mandel_function (fly_recompute Xmax Ymax default_view) (fun _ => 0)
         16 0 0 16 16 blank_screen = Some s'
    /\ forall x y, 0 <= x < 16 -> 0 <= y < 16 ->
         getpixel (screen s') x y
         = Some (mandel_function
                   (xs (fly_recompute Xmax Ymax default_view)
                    + double_of_int x
                      * xu (fly_recompute Xmax Ymax default_view))%float
                   (ys (fly_recompute Xmax Ymax default_view)
                    + double_of_int y
                      * yu (fly_recompute Xmax Ymax default_view))%float).
Proof.
  apply (view_renders_every_pixel mandel_function
           (fly_recompute Xmax Ymax default_view) (fun _ => 0)
           16 0 0 16 16 blank_screen).
  - exists 0. reflexivity.
  - exists 0. reflexivity.
  - intros n. reflexivity.
  - lia.
  - simpl. lia.
  - simpl. lia.
Defined.

(** C1 as stated fails for a rectangle whose origin is off the 16-grid.
    With the rectangle (8,0)-(24,16) and plane point [-4 + x/8] for column
    [x], pixel (16,0) is painted only by the first pass, as part of the tile
    at (8,0): every later pass skips the block at (16,0) because 16 and 0
    are multiples of twice its edge.  It keeps the colour of plane point
    (-3,0), which is 0, while its own plane point (-2,0) evaluates to 255. *)
Lemma view_off_grid_origin_keeps_stale_pixel :
  let vp := Viewport (-4) 4 0 8 0.125 0.125 in
  exists s',
    view mandel_function vp (fun _ => 0) 16 8 0 24 16 blank_screen = Some s'
    /\ getpixel (screen s') 16 0 = Some 0
    /\ mandel_function (xs vp + double_of_int 16 * xu vp)%float
                       (ys vp + double_of_int 0 * yu vp)%float = 255.
Proof.
  eexists. split; [vm_compute; reflexivity|].
  split; vm_compute; reflexivity.
Qed.

(** C10 as stated fails in its last clause: in the pass of edge 8 the
    terminal block at (0,0) is reached and not filled. *)
Lemma aligned_terminal_block_is_skipped :
  exists s',
    recursor mandel_function default_view (fun _ => 0) 1 0 0 8
             (RasterState 8 16 0 0 []) = Some s'
    /\ screen s' = [].
Proof. eexists. split; reflexivity. Qed.

(** A cancelled subdivision, on the tile at (0,0) during the pass of edge 4:
    the first read of [tact] is non-zero and nothing is drawn. *)
Lemma cancel_leaves_whole_blocks_witness :
  exists s',
    recursor mandel_function default_view (fun _ => 1) 1 0 0 16
             (RasterState 4 16 0 0 []) = Some s'
    /\ screen s' = screen (RasterState 4 16 0 0 []).
Proof.
  apply (proj1 (cancel_leaves_whole_blocks mandel_function default_view
                                           (fun _ => 1))
               0%nat 0 0 16 (RasterState 4 16 0 0 [])); simpl; lia.
Defined.


(** ** The orbit tracer on a concrete parameter *)

(** C9 fails in the code: with the gradient on, the parameter (2,0) passes
    the radius test once, so the priming loop measures [itr = 1]; the drawing
    loop then draws its single step [i = 1] in colour [(1<<8)/1 = 256]. *)
Theorem orbit_gradient_reaches_256 :
  orbit_iterator 4096 (OrbitGlobals 2 0 1 1) probe_view 0 0 probe_size probe_size
  = Some [Textprintf 1 376 0xE0 1;
          Putpixel 384 192 256;
          Rectfill (Rect 0 0 384 384 0)].
Proof. vm_compute. reflexivity. Qed.

(** The same at the last step of a longer orbit, drawn as line segments:
    parameter (1,0) escapes at step 2 and its second segment has colour
    [(2<<8)/2 = 256]. *)
Lemma orbit_gradient_last_segment_256 :
  orbit_iterator 4096 (OrbitGlobals 1 0 0 1) probe_view 0 0 probe_size probe_size
  = Some [Textprintf 1 376 0xE0 2;
          Line 288 192 384 192 256;
          Line 288 192 288 192 128;
          Rectfill (Rect 0 0 384 384 0)].
Proof. vm_compute. reflexivity. Qed.

Lemma escape_loop_le (limit : Z) (c : float * float) :
  forall (fuel : nat) (z : float * float) (i n : Z),
    escape_loop fuel limit c z i = Some n -> i <= n.
Proof.
  induction fuel as [|fuel IH]; intros z i n Hrun; [discriminate|].
  simpl in Hrun. destruct (within_radius z).
  - destruct (i + 1 <? limit).
    + apply IH in Hrun. lia.
    + injection Hrun as <-. lia.
  - injection Hrun as <-. lia.
Qed.

(** The drawing loop runs in lockstep with the priming loop: it ends with
    the same counter [n], and it has drawn the steps [i+1 .. m], where [m]
    is [n] when the orbit left the radius before the limit and [limit - 1]
    otherwise. *)
Lemma orbit_draw_loop_lockstep (og : orbit_globals) (vp : viewport)
      (xxs yys itr : Z) :
  forall (fuel : nat) (z sz : float * float) (i n : Z)
         (out : list draw_call),
    i < orbit_iter_limit ->
    escape_loop fuel orbit_iter_limit (cx og, cy og) z i = Some n ->
    exists calls,
      orbit_draw_loop fuel og vp xxs yys itr z sz i out
      = Some (n, calls ++ out)
      /\ map call_color calls
         = map (step_color og itr)
               (rev (seqZ (i + 1)
                          ((if n <? orbit_iter_limit then n
                            else orbit_iter_limit - 1) - i))).
Proof.
  induction fuel as [|fuel IH]; intros z sz i n out Hi Hrun; [discriminate|].
  simpl in Hrun |- *. destruct (within_radius z).
  - destruct (Z.ltb_spec (i + 1) orbit_iter_limit) as [Hlt|Hge].
    + pose proof (escape_loop_le _ _ _ _ _ _ Hrun) as Hle.
      destruct (IH (next_iterate (cx og, cy og) z) z (i + 1) n
                   ((if negb (orbit_pixel og =? 0)
                     then Putpixel (pixel_x vp xxs (fst z))
                                   (pixel_y vp yys (snd z))
                                   (step_color og itr (i + 1))
                     else Line (pixel_x vp xxs (fst sz))
                               (pixel_y vp yys (snd sz))
                               (pixel_x vp xxs (fst z))
                               (pixel_y vp yys (snd z))
                               (step_color og itr (i + 1))) :: out)
                   Hlt Hrun) as (calls & Hdraw & Hcol).
      eexists (calls ++ [_]). split.
      * unfold step_color in Hdraw. rewrite Hdraw.
        now rewrite <- app_assoc.
      * set (m := if n <? orbit_iter_limit then n else orbit_iter_limit - 1)
          in *.
        assert (Hm : i + 1 <= m)
          by (unfold m; destruct (Z.ltb_spec n orbit_iter_limit); lia).
        rewrite (seqZ_cons (i + 1) (m - i)) by lia.
        replace (Z.succ (i + 1)) with (i + 1 + 1) by lia.
        replace (Z.pred (m - i)) with (m - (i + 1)) by lia.
        rewrite map_app, Hcol. simpl rev. rewrite map_app. f_equal.
        simpl. now destruct (negb (orbit_pixel og =? 0)).
    + injection Hrun as <-. exists []. split; [reflexivity|].
      destruct (Z.ltb_spec (i + 1) orbit_iter_limit); [lia|].
      now rewrite seqZ_nil by lia.
  - injection Hrun as <-. exists []. split; [reflexivity|].
    destruct (Z.ltb_spec i orbit_iter_limit); [|lia].
    now rewrite seqZ_nil by lia.
Qed.

(** With the gradient on, for every parameter and viewport:
    [orbit_iterator] returns; it draws the steps [1 .. m] of the orbit, step
    [j] in colour [(j<<8)/T], where [T] is the count of the priming loop and
    [m] is [T] when the orbit leaves the radius before the limit and 4094
    otherwise; the colours of the steps below [T] lie within 0..255, and the
    colour of step [T], the last one drawn for an orbit that leaves the
    radius, is 256. *)
Theorem orbit_gradient_colors (fuel : nat) (og : orbit_globals)
        (vp : viewport) (xxs yys xxe yye : Z) :
  orbit_iter_limit <= Z.of_nat fuel ->
  pal_gradient og <> 0 ->
  exists (T : Z) (calls : list draw_call),
    escape_loop fuel orbit_iter_limit (cx og, cy og) (cx og, cy og) 0 = Some T
    /\ orbit_iterator fuel og vp xxs yys xxe yye
       = Some (Textprintf 1 (yye - 8) 0xE0 T
                 :: calls ++ [Rectfill (Rect xxs yys xxe yye 0)])
    /\ 0 <= T <= orbit_iter_limit
    /\ map call_color calls
       = map (fun j => Z.quot (Z.shiftl j 8) T)
             (rev (seqZ 1 (if T <? orbit_iter_limit then T
                           else orbit_iter_limit - 1)))
    /\ (forall j, 1 <= j < T -> 0 <= Z.quot (Z.shiftl j 8) T <= 255)
    /\ (1 <= T -> Z.quot (Z.shiftl T 8) T = 256).
Proof.
  intros Hfuel Hgrad.
  destruct (escape_loop_spec orbit_iter_limit (cx og, cy og) fuel
                             (cx og, cy og) 0)
    as (T & Hprime & HT & _); [reflexivity|lia|].
  destruct (orbit_draw_loop_lockstep og vp xxs yys T fuel (cx og, cy og)
              (cx og, cy og) 0 T [Rectfill (Rect xxs yys xxe yye 0)]
              ltac:(reflexivity) Hprime) as (calls & Hdraw & Hcol).
  exists T, calls. split; [exact Hprime|]. split.
  - unfold orbit_iterator. cbv zeta. rewrite Hprime. cbn [mbind option_bind].
    rewrite Hdraw. reflexivity.
  - split; [exact HT|]. split; [|split].
    + rewrite Hcol, Z.sub_0_r. apply map_ext. intros j.
      unfold step_color. now destruct (Z.eqb_spec (pal_gradient og) 0).
    + intros j Hj. rewrite Z.shiftl_mul_pow2 by lia. change (2 ^ 8) with 256.
      split.
      * apply Z.quot_pos; lia.
      * assert (j * 256 ÷ T < 256); [|lia].
        apply Z.quot_lt_upper_bound; lia.
    + intros HT1. rewrite Z.shiftl_mul_pow2 by lia. change (2 ^ 8) with 256.
      rewrite Z.mul_comm. apply Z.quot_mul. lia.
Qed.

(** [orbit_gradient_colors] for the parameter (2,0) in the probe window. *)
Lemma orbit_gradient_colors_witness :
  exists (T : Z) (calls : list draw_call),
    escape_loop 4096 orbit_iter_limit (2, 0)%float (2, 0)%float 0 = Some T
    /\ orbit_iterator 4096 (OrbitGlobals 2 0 1 1) probe_view
                      0 0 probe_size probe_size
       = Some (Textprintf 1 (probe_size - 8) 0xE0 T
                 :: calls ++ [Rectfill (Rect 0 0 probe_size probe_size 0)])
    /\ 0 <= T <= orbit_iter_limit
    /\ map call_color calls
       = map (fun j => Z.quot (Z.shiftl j 8) T)
             (rev (seqZ 1 (if T <? orbit_iter_limit then T
                           else orbit_iter_limit - 1)))
    /\ (forall j, 1 <= j < T -> 0 <= Z.quot (Z.shiftl j 8) T <= 255)
    /\ (1 <= T -> Z.quot (Z.shiftl T 8) T = 256).
Proof.
  apply (orbit_gradient_colors 4096 (OrbitGlobals 2 0 1 1) probe_view
                               0 0 probe_size probe_size).
  - apply Z.leb_le. vm_compute. reflexivity.
  - simpl. lia.
Defined.

(** ** Palette rotation *)

Lemma RGB_eta (p : RGB) : mkRGB (r p) (g p) (b p) = p.
Proof. now destruct p. Qed.

Lemma copy_entry_insert (i j : nat) (pal : list RGB) :
  copy_entry i j pal = <[i := pal !!! j]> pal.
Proof. unfold copy_entry. now rewrite RGB_eta. Qed.

Lemma list_eq_total (l1 l2 : list RGB) :
  length l1 = length l2 ->
  (forall k, (k < length l1)%nat -> l1 !!! k = l2 !!! k) ->
  l1 = l2.
Proof.
  intros Hlen Hk. apply list_eq. intros k.
  destruct (Nat.lt_ge_cases k (length l1)) as [Hlt|Hge].
  - rewrite !list_lookup_lookup_total_lt by lia. f_equal. now apply Hk.
  - rewrite !lookup_ge_None_2 by lia. reflexivity.
Qed.

Lemma for_down_length (i : nat) (pal : list RGB) :
  length (for_down i (fun i => copy_entry i (i - 1)) pal) = length pal.
Proof.
  revert pal. induction i as [|i IH]; intros pal; [reflexivity|].
  cbn [for_down]. rewrite IH, copy_entry_insert. apply length_insert.
Qed.

Lemma for_up_length (n i : nat) (pal : list RGB) :
  length (for_up n i (fun i => copy_entry i (i + 1)) pal) = length pal.
Proof.
  revert i pal. induction n as [|n IH]; intros i pal; [reflexivity|].
  cbn [for_up]. rewrite IH, copy_entry_insert. apply length_insert.
Qed.

(** The inner loop of [rot_forward_pal] moves entries 0..i-1 up by one. *)
Lemma for_down_lookup (i : nat) :
  forall (pal : list RGB) (k : nat),
    (i < length pal)%nat ->
    for_down i (fun i => copy_entry i (i - 1)) pal !!! k
    = if decide (1 <= k <= i)%nat then pal !!! (k - 1)%nat else pal !!! k.
Proof.
  induction i as [|i IH]; intros pal k Hi.
  - cbn [for_down]. destruct (decide _); [lia|reflexivity].
  - cbn [for_down]. rewrite copy_entry_insert.
    rewrite IH by (rewrite length_insert; lia).
    replace (S i - 1)%nat with i by lia.
    destruct (decide (1 <= k <= i)%nat) as [Hk|Hk].
    + rewrite list_lookup_total_insert_ne by lia.
      destruct (decide _); [reflexivity|lia].
    + destruct (decide (k = S i)) as [->|Hne].
      * rewrite list_lookup_total_insert_eq by lia.
        destruct (decide _); [|lia]. f_equal. lia.
      * rewrite list_lookup_total_insert_ne by lia.
        destruct (decide _); [lia|reflexivity].
Qed.

(** The inner loop of [rot_backward_pal] moves entries i+1..i+n down by
    one. *)
Lemma for_up_lookup (n : nat) :
  forall (i : nat) (pal : list RGB) (k : nat),
    (i + n < length pal)%nat ->
    for_up n i (fun i => copy_entry i (i + 1)) pal !!! k
    = if decide (i <= k < i + n)%nat then pal !!! (S k) else pal !!! k.
Proof.
  induction n as [|n IH]; intros i pal k Hi.
  - cbn [for_up]. destruct (decide _); [lia|reflexivity].
  - cbn [for_up]. rewrite copy_entry_insert.
    rewrite IH by (rewrite length_insert; lia).
    destruct (decide (S i <= k < S i + n)%nat) as [Hk|Hk].
    + rewrite list_lookup_total_insert_ne by lia.
      destruct (decide _); [reflexivity|lia].
    + destruct (decide (k = i)) as [->|Hne].
      * rewrite list_lookup_total_insert_eq by lia.
        destruct (decide _); [|lia]. f_equal. lia.
      * rewrite list_lookup_total_insert_ne by lia.
        destruct (decide _); [lia|reflexivity].
Qed.

#[local] Opaque for_down for_up.

Lemma forward_tick_length (st : rot_state) :
  length (fst (forward_tick st)) = length (fst st).
Proof.
  destruct st as [pal [[pr pg] pb]]. unfold forward_tick. cbn [fst].
  now rewrite length_insert, for_down_length.
Qed.

Lemma forward_tick_lookup (pal : list RGB) (pr pg pb : Z) (k : nat) :
  length pal = 256%nat -> (k < 256)%nat ->
  fst (forward_tick (pal, (pr, pg, pb))) !!! k
  = if decide (k = 0)%nat then mkRGB pr pg pb else pal !!! (k - 1)%nat.
Proof.
  intros Hlen Hk. unfold forward_tick. cbn [fst].
  destruct (decide (k = 0)%nat) as [->|Hne].
  - rewrite list_lookup_total_insert_eq; [reflexivity|].
    rewrite for_down_length. lia.
  - rewrite list_lookup_total_insert_ne by lia.
    rewrite for_down_lookup by lia.
    destruct (decide _); [reflexivity|lia].
Qed.

Lemma forward_tick_saved (st : rot_state) :
  snd (forward_tick st)
  = (r (fst (forward_tick st) !!! 255%nat),
     g (fst (forward_tick st) !!! 255%nat),
     b (fst (forward_tick st) !!! 255%nat)).
Proof. destruct st as [pal [[pr pg] pb]]. reflexivity. Qed.

Lemma backward_tick_length (st : rot_state) :
  length (fst (backward_tick st)) = length (fst st).
Proof.
  destruct st as [pal [[pr pg] pb]]. unfold backward_tick. cbn [fst].
  now rewrite length_insert, for_up_length.
Qed.

Lemma backward_tick_lookup (pal : list RGB) (pr pg pb : Z) (k : nat) :
  length pal = 256%nat -> (k < 256)%nat ->
  fst (backward_tick (pal, (pr, pg, pb))) !!! k
  = if decide (k = 255)%nat then mkRGB pr pg pb else pal !!! (S k).
Proof.
  intros Hlen Hk. unfold backward_tick. cbn [fst].
  destruct (decide (k = 255)%nat) as [->|Hne].
  - rewrite list_lookup_total_insert_eq; [reflexivity|].
    rewrite for_up_length. lia.
  - rewrite list_lookup_total_insert_ne by lia.
    rewrite for_up_lookup by lia.
    destruct (decide _); [reflexivity|lia].
Qed.

Lemma backward_tick_saved (st : rot_state) : snd (backward_tick st) = snd st.
Proof. destruct st as [pal [[pr pg] pb]]. reflexivity. Qed.

(** After [n] ticks of the forward loop entry [k] holds what entry [k - n]
    held, counting cyclically, and the locals hold the last entry. *)
Lemma forward_ticks (pal : list RGB) :
  length pal = 256%nat ->
  forall n : nat, (n <= 256)%nat ->
    let st := Nat.iter n forward_tick
                (pal, (r (pal !!! 255%nat), g (pal !!! 255%nat),
                       b (pal !!! 255%nat))) in
    length (fst st) = 256%nat
    /\ snd st = (r (fst st !!! 255%nat), g (fst st !!! 255%nat),
                 b (fst st !!! 255%nat))
    /\ forall k : nat, (k < 256)%nat ->
         fst st !!! k = if decide (k < n)%nat
                        then pal !!! (256 + k - n)%nat
                        else pal !!! (k - n)%nat.
Proof.
  intros Hlen. induction n as [|n IH]; intros Hn st.
  - subst st. unfold Nat.iter. cbn [nat_rect fst snd]. repeat split; [exact Hlen|].
    intros k Hk. destruct (decide _); [lia|]. f_equal; lia.
  - destruct (IH ltac:(lia)) as (L & Sv & Lk). clear IH.
    subst st. rewrite Nat.iter_succ.
    set (st := Nat.iter n forward_tick _) in *.
    split; [now rewrite forward_tick_length|].
    split; [apply forward_tick_saved|].
    intros k Hk. destruct st as [p sv]. cbn [fst snd] in *. subst sv.
    rewrite forward_tick_lookup, RGB_eta by assumption.
    destruct (decide (k = 0)%nat) as [->|Hne].
    + rewrite Lk by lia. destruct (decide (255 < n)%nat); [lia|].
      destruct (decide (0 < S n)%nat); [|lia]. f_equal; lia.
    + rewrite Lk by lia.
      destruct (decide (k - 1 < n)%nat), (decide (k < S n)%nat);
        try lia; f_equal; lia.
Qed.

(** After [n] ticks of the backward loop entry [k] holds what entry [k + n]
    held while [k + n <= 255]; every entry above that holds the first entry
    of the original table, which the locals keep throughout. *)
Lemma backward_ticks (pal : list RGB) :
  length pal = 256%nat ->
  forall n : nat, (n <= 256)%nat ->
    let st := Nat.iter n backward_tick
                (pal, (r (pal !!! 0%nat), g (pal !!! 0%nat),
                       b (pal !!! 0%nat))) in
    length (fst st) = 256%nat
    /\ snd st = (r (pal !!! 0%nat), g (pal !!! 0%nat), b (pal !!! 0%nat))
    /\ forall k : nat, (k < 256)%nat ->
         fst st !!! k = if decide (k + n < 256)%nat
                        then pal !!! (k + n)%nat
                        else pal !!! 0%nat.
Proof.
  intros Hlen. induction n as [|n IH]; intros Hn st.
  - subst st. unfold Nat.iter. cbn [nat_rect fst snd]. repeat split; [exact Hlen|].
    intros k Hk. destruct (decide _); [|lia]. f_equal; lia.
  - destruct (IH ltac:(lia)) as (L & Sv & Lk). clear IH.
    subst st. rewrite Nat.iter_succ.
    set (st := Nat.iter n backward_tick _) in *.
    split; [now rewrite backward_tick_length|].
    split; [now rewrite backward_tick_saved|].
    intros k Hk. destruct st as [p sv]. cbn [fst snd] in *. subst sv.
    rewrite backward_tick_lookup, RGB_eta by assumption.
    destruct (decide (k = 255)%nat) as [->|Hne].
    + destruct (decide _); [lia|reflexivity].
    + rewrite Lk by lia.
      destruct (decide (S k + n < 256)%nat), (decide (k + S n < 256)%nat);
        try lia; [f_equal; lia|reflexivity].
Qed.

(** The forward rotation is cyclic of order 256: 256 ticks of the loop of
    [rot_forward_pal] restore any 256-entry table. *)
Theorem rot_forward_pal_256 (pal : list RGB) :
  length pal = 256%nat -> rot_forward_pal 256 pal = pal.
Proof.
  intros Hlen. unfold rot_forward_pal.
  destruct (forward_ticks pal Hlen 256 ltac:(lia)) as (L & _ & Lk).
  apply list_eq_total; [congruence|].
  intros k Hk. rewrite L in Hk. rewrite Lk by exact Hk.
  destruct (decide _); [|lia]. f_equal; lia.
Qed.

(** One forward tick followed by one backward tick, each in a call of its
    own, is the identity on a 256-entry table. *)
Theorem rot_forward_then_backward (pal : list RGB) :
  length pal = 256%nat -> rot_backward_pal 1 (rot_forward_pal 1 pal) = pal.
Proof.
  intros Hlen.
  destruct (forward_ticks pal Hlen 1 ltac:(lia)) as (L & _ & Lk).
  fold (rot_forward_pal 1 pal) in L, Lk.
  destruct (backward_ticks (rot_forward_pal 1 pal) L 1 ltac:(lia))
    as (L' & _ & Lk').
  fold (rot_backward_pal 1 (rot_forward_pal 1 pal)) in L', Lk'.
  apply list_eq_total; [congruence|].
  intros k Hk. rewrite L' in Hk. rewrite Lk' by exact Hk.
  destruct (decide (k + 1 < 256)%nat).
  - rewrite Lk by lia. destruct (decide _); [lia|]. f_equal; lia.
  - rewrite Lk by lia. destruct (decide _); [|lia]. f_equal; lia.
Qed.

(** In one call of [rot_backward_pal] the entry written at 255 is always
    the first entry the table had on entry: after [n <= 256] ticks the
    table is its own tail from [n] on, followed by [n] copies of that
    entry.  After 256 ticks nothing else is left. *)
Theorem rot_backward_pal_ticks (pal : list RGB) (n : nat) :
  length pal = 256%nat -> (n <= 256)%nat ->
  rot_backward_pal n pal = drop n pal ++ replicate n (pal !!! 0%nat).
Proof.
  intros Hlen Hn. unfold rot_backward_pal.
  destruct (backward_ticks pal Hlen n Hn) as (L & _ & Lk).
  apply list_eq_total.
  - rewrite L, length_app, length_drop, length_replicate. lia.
  - intros k Hk. rewrite L in Hk. rewrite Lk by exact Hk.
    destruct (decide (k + n < 256)%nat).
    + rewrite lookup_total_app_l by (rewrite length_drop; lia).
      rewrite lookup_total_drop. f_equal; lia.
    + rewrite lookup_total_app_r by (rewrite length_drop; lia).
      rewrite lookup_total_replicate_2; [reflexivity|].
      rewrite length_drop. lia.
Qed.

(** C7 fails in the code for the backward rotation.  On the default table,
    two ticks of one call of [rot_backward_pal] leave the original entry 0
    in both 254 and 255 (a rotation would put the original entry 1 in 255),
    and 256 ticks leave 256 copies of the original entry 0 instead of the
    original table.  256 ticks of [rot_forward_pal] do restore it. *)
Theorem rot_backward_pal_repeats_first_entry :
  set_default_pal !!! 0%nat = mkRGB 0 0 0
  /\ set_default_pal !!! 1%nat = mkRGB 1 0 0
  /\ rot_backward_pal 2 set_default_pal !!! 254%nat = mkRGB 0 0 0
  /\ rot_backward_pal 2 set_default_pal !!! 255%nat = mkRGB 0 0 0
  /\ rot_backward_pal 256 set_default_pal = replicate 256 (mkRGB 0 0 0)
  /\ rot_forward_pal 256 set_default_pal = set_default_pal.
Proof. vm_compute. repeat split; reflexivity. Qed.

(** The three rotation facts on the default table. *)
Lemma rot_forward_pal_256_witness :
  rot_forward_pal 256 set_default_pal = set_default_pal.
Proof. apply rot_forward_pal_256. vm_compute. reflexivity. Defined.

Lemma rot_forward_then_backward_witness :
  rot_backward_pal 1 (rot_forward_pal 1 set_default_pal) = set_default_pal.
Proof. apply rot_forward_then_backward. vm_compute. reflexivity. Defined.

Lemma rot_backward_pal_ticks_witness :
  rot_backward_pal 256 set_default_pal
  = drop 256 set_default_pal ++ replicate 256 (set_default_pal !!! 0%nat).
Proof.
  apply rot_backward_pal_ticks.
  - vm_compute. reflexivity.
  - apply Nat.leb_le. vm_compute. reflexivity.
Defined.

(** * Further properties of the rasterizer *)

Lemma tile_count_0 (a b : Z) : b <= a -> tile_count a b = 0%nat.
Proof.
  intros Hle. unfold tile_count.
  assert ((b - a + 15) / 16 <= 0); [|lia].
  assert ((b - a + 15) / 16 < 1); [|lia].
  apply Z.div_lt_upper_bound; lia.
Qed.

Lemma tile_count_S (a b : Z) :
  a < b -> tile_count a b = S (tile_count (a + 16) b).
Proof.
  intros Hlt. unfold tile_count.
  replace (b - a + 15) with (b - (a + 16) + 15 + 1 * 16) by lia.
  rewrite Z.div_add by lia.
  assert (0 <= (b - (a + 16) + 15) / 16) by (apply Z.div_pos; lia).
  lia.
Qed.

Section RasterizerLoops.

Variable iter_function : float -> float -> Z.
Variable vp : viewport.
Variable tact_at : nat -> Z.

Local Abbreviation block_color := (block_color iter_function vp).
Local Abbreviation recursor := (recursor iter_function vp tact_at).
Local Abbreviation for_x := (for_x iter_function vp tact_at).
Local Abbreviation for_y := (for_y iter_function vp tact_at).
Local Abbreviation pass := (pass iter_function vp tact_at).
Local Abbreviation for_frag_size := (for_frag_size iter_function vp tact_at).
Local Abbreviation view := (view iter_function vp tact_at).
Local Abbreviation repaints := (repaints iter_function vp).
Local Abbreviation refined := (refined iter_function vp).

(** ** Counting over the tiles of a pass

    If every call of [recursor] on a tile keeps an invariant of the state
    and adds fixed amounts to two counters, the loops of a pass add those
    amounts once per tile. *)

Section PerTile.

Variable fuel : nat.
Variable Inv : raster_state -> Prop.
Variable on_grid : Z -> Z -> Prop.
Variables m1 m2 : raster_state -> nat.
Variables d1 d2 : nat.

Hypothesis Inv_step : forall s, Inv s -> step s = 16.
Hypothesis on_grid_right : forall x y, on_grid x y -> on_grid (x + 16) y.
Hypothesis on_grid_down : forall x y, on_grid x y -> on_grid x (y + 16).
Hypothesis tile :
  forall x y s, on_grid x y -> Inv s ->
    exists s', recursor fuel x y 16 s = Some s'
      /\ Inv s'
      /\ m1 s' = (m1 s + d1)%nat /\ m2 s' = (m2 s + d2)%nat.

Lemma for_x_counts (y xxe : Z) :
  forall (n : nat) (x : Z) (s : raster_state),
    xxe - x <= Z.of_nat n -> on_grid x y -> Inv s ->
    exists s', for_x n fuel x y xxe s = Some s'
      /\ Inv s'
      /\ m1 s' = (m1 s + tile_count x xxe * d1)%nat
      /\ m2 s' = (m2 s + tile_count x xxe * d2)%nat.
Proof.
  induction n as [|n IH]; intros x s Hn Hg HI; rewrite for_x_unfold;
    destruct (Z.ltb_spec x xxe) as [Hlt|Hge]; try lia;
    try (exists s; rewrite tile_count_0 by lia; repeat split; auto; lia).
  destruct (tile x y s Hg HI) as (s1 & E1 & I1 & M1 & M2).
  rewrite (Inv_step s HI), E1. cbn [mbind option_bind].
  rewrite (Inv_step s1 I1).
  destruct (IH (x + 16) s1) as (s2 & E2 & I2 & N1 & N2);
    [lia|auto|exact I1|].
  exists s2. rewrite (tile_count_S x xxe Hlt).
  repeat split; [exact E2|exact I2|lia|lia].
Qed.

Lemma for_y_counts (xxs xxe yye : Z) :
  xxe - xxs <= Z.of_nat fuel ->
  forall (n : nat) (y : Z) (s : raster_state),
    yye - y <= Z.of_nat n -> on_grid xxs y -> Inv s ->
    exists s', for_y n fuel xxs y xxe yye s = Some s'
      /\ Inv s'
      /\ m1 s' = (m1 s + tile_count y yye * (tile_count xxs xxe * d1))%nat
      /\ m2 s' = (m2 s + tile_count y yye * (tile_count xxs xxe * d2))%nat.
Proof.
  intros Hw.
  induction n as [|n IH]; intros y s Hn Hg HI; rewrite for_y_unfold;
    destruct (Z.ltb_spec y yye) as [Hlt|Hge]; try lia;
    try (exists s; rewrite tile_count_0 by lia; repeat split; auto; lia).
  destruct (for_x_counts y xxe fuel xxs s Hw Hg HI)
    as (s1 & E1 & I1 & M1 & M2).
  rewrite E1. cbn [mbind option_bind]. rewrite (Inv_step s1 I1).
  destruct (IH (y + 16) s1) as (s2 & E2 & I2 & N1 & N2);
    [lia|auto|exact I1|].
  exists s2. rewrite (tile_count_S y yye Hlt).
  repeat split; [exact E2|exact I2|lia|lia].
Qed.

End PerTile.

(** ** The three kinds of tile visit *)

(** In the first pass: one fill, no read of [tact]. *)
Lemma first_pass_tile (fuel : nat) (x y : Z) (s : raster_state) :
  (1 <= fuel)%nat ->
  frag_size s = 16 /\ step s = 16 /\ over s <> 0 ->
  exists s', recursor fuel x y 16 s = Some s'
    /\ (frag_size s' = 16 /\ step s' = 16 /\ over s' <> 0)
    /\ length (screen s') = (length (screen s) + 1)%nat
    /\ tact_reads s' = (tact_reads s + 0)%nat.
Proof.
  intros Hfuel (Hfs & Hst & Hov). destruct fuel as [|fuel]; [lia|].
  pose proof (recursor_terminal iter_function vp tact_at fuel x y s) as H.
  rewrite Hfs, must_paint_over in H by exact Hov.
  eexists. split; [exact H|]. simpl. repeat split; auto; lia.
Qed.

(** In a later pass with [tact] set: one read, no fill. *)
Lemma cancelled_tile (fuel : nat) (f : Z) (x y : Z) (s : raster_state) :
  (1 <= fuel)%nat -> f <> 16 -> (forall n, tact_at n <> 0) ->
  frag_size s = f /\ step s = 16 ->
  exists s', recursor fuel x y 16 s = Some s'
    /\ (frag_size s' = f /\ step s' = 16)
    /\ length (screen s') = (length (screen s) + 0)%nat
    /\ tact_reads s' = (tact_reads s + 1)%nat.
Proof.
  intros Hfuel Hf Hset (Hfs & Hst). destruct fuel as [|fuel]; [lia|].
  rewrite recursor_unfold.
  destruct (Z.eqb_spec 16 (frag_size s)) as [Heq|_]; [congruence|].
  destruct (Z.eqb_spec (tact_at (tact_reads s)) 0) as [Heq|_];
    [now apply Hset in Heq|].
  eexists. split; [reflexivity|]. simpl. repeat split; auto; lia.
Qed.

Lemma half_step_misaligned (f x : Z) :
  0 < f -> (2 * f | x) -> ~ (2 * f | x + f).
Proof.
  intros Hf [a Ha] [c Hc]. subst x.
  assert (H : f * (2 * (c - a) - 1) = 0) by lia.
  apply Z.mul_eq_0 in H. lia.
Qed.

(** In a later pass with [tact] clear: a call on a square of edge
    [2^(k+j)] whose origin is on the grid of that edge fills one block if it
    is itself terminal and to be painted, and otherwise three quarters of
    the blocks of edge [2^k] it holds, the quarter on the twice coarser grid
    being skipped. *)
Lemma recursor_count (k : nat) :
  (forall n, tact_at n = 0) ->
  forall (j fuel : nat) (x y : Z) (s : raster_state),
    (j < fuel)%nat -> frag_size s = pow2 k -> over s = 0 ->
    (pow2 (k + j) | x) -> (pow2 (k + j) | y) ->
    exists s', recursor fuel x y (pow2 (k + j)) s = Some s'
      /\ length (screen s')
         = (length (screen s)
            + match j with
              | O => if must_paint 0 x y (pow2 k) then 1 else 0
              | S j' => 3 * 4 ^ j'
              end)%nat.
Proof.
  intros Hq. induction j as [|j IH]; intros fuel x y s Hfuel Hfs Hov Hx Hy;
    (destruct fuel as [|fuel]; [lia|]).
  - rewrite Nat.add_0_r, <- Hfs, recursor_terminal, Hov.
    eexists. split; [reflexivity|].
    destruct (must_paint 0 x y (frag_size s)); simpl; lia.
  - pose proof (pow2_pos k) as Hk. pose proof (pow2_pos (k + j)) as Hkj.
    assert (Hl : pow2 (k + S j) = 2 * pow2 (k + j))
      by (now rewrite Nat.add_succ_r, pow2_S).
    rewrite Hl in Hx, Hy.
    assert (Hx' : (pow2 (k + j) | x))
      by (destruct Hx as [a ->]; exists (a * 2); lia).
    assert (Hy' : (pow2 (k + j) | y))
      by (destruct Hy as [a ->]; exists (a * 2); lia).
    assert (Hself : (pow2 (k + j) | pow2 (k + j))) by reflexivity.
    rewrite recursor_unfold.
    destruct (Z.eqb_spec (pow2 (k + S j)) (frag_size s)) as [Heq|_].
    { rewrite Hfs, Hl, pow2_add in Heq. pose proof (pow2_pos j). nia. }
    rewrite Hq. simpl negb. cbv zeta.
    replace (Z.shiftr (pow2 (k + S j)) 1) with (pow2 (k + j))
      by (now rewrite Nat.add_succ_r, pow2_shiftr).
    set (l := pow2 (k + j)) in *.
    set (s0 := snd (read_tact tact_at s)).
    destruct (IH fuel x y s0) as (s1 & E1 & L1);
      [lia|exact Hfs|exact Hov|exact Hx'|exact Hy'|].
    pose proof (recursor_emits _ _ _ _ _ _ _ _ _ E1) as (F1 & _ & O1 & _).
    unfold s0 in F1, O1. simpl in F1, O1.
    destruct (IH fuel (x + l) y s1) as (s2 & E2 & L2);
      [lia|congruence|congruence|now apply Z.divide_add_r|exact Hy'|].
    pose proof (recursor_emits _ _ _ _ _ _ _ _ _ E2) as (F2 & _ & O2 & _).
    destruct (IH fuel (x + l) (y + l) s2) as (s3 & E3 & L3);
      [lia|congruence|congruence|now apply Z.divide_add_r
      |now apply Z.divide_add_r|].
    pose proof (recursor_emits _ _ _ _ _ _ _ _ _ E3) as (F3 & _ & O3 & _).
    destruct (IH fuel x (y + l) s3) as (s4 & E4 & L4);
      [lia|congruence|congruence|exact Hx'|now apply Z.divide_add_r|].
    rewrite E1. cbn [mbind option_bind]. rewrite E2. cbn [mbind option_bind].
    rewrite E3. cbn [mbind option_bind].
    exists s4. split; [exact E4|].
    rewrite L4, L3, L2, L1. change (length (screen s0)) with (length (screen s)).
    destruct j as [|j].
    + subst l. rewrite Nat.add_0_r in *.
      assert (P1 : must_paint 0 x y (pow2 k) = false).
      { apply not_true_is_false. rewrite (must_paint_misaligned tact_at). tauto. }
      assert (P2 : must_paint 0 (x + pow2 k) y (pow2 k) = true).
      { apply (must_paint_misaligned tact_at). left.
        now apply half_step_misaligned. }
      assert (P3 : must_paint 0 (x + pow2 k) (y + pow2 k) (pow2 k) = true).
      { apply (must_paint_misaligned tact_at). left.
        now apply half_step_misaligned. }
      assert (P4 : must_paint 0 x (y + pow2 k) (pow2 k) = true).
      { apply (must_paint_misaligned tact_at). right.
        now apply half_step_misaligned. }
      rewrite P1, P2, P3, P4. simpl. lia.
    + rewrite (Nat.pow_succ_r' 4 j). lia.
Qed.

(** A tile of a later pass, with [tact] clear: [3 * 4^(3-k)] fills. *)
Lemma quiet_tile (fuel k : nat) (x y : Z) (s : raster_state) :
  (k < 4)%nat -> (4 - k < fuel)%nat -> (forall n, tact_at n = 0) ->
  (16 | x) /\ (16 | y) ->
  frag_size s = pow2 k /\ step s = 16 /\ over s = 0 ->
  exists s', recursor fuel x y 16 s = Some s'
    /\ (frag_size s' = pow2 k /\ step s' = 16 /\ over s' = 0)
    /\ length (screen s') = (length (screen s) + 3 * 4 ^ (3 - k))%nat.
Proof.
  intros Hk Hfuel Hq (Hx & Hy) (Hfs & Hst & Hov).
  destruct (recursor_count k Hq (4 - k) fuel x y s) as (s' & E & L);
    try assumption;
    try (replace (k + (4 - k))%nat with 4%nat by lia; assumption).
  replace (k + (4 - k))%nat with 4%nat in E by lia. rewrite pow2_4 in E.
  pose proof (recursor_emits _ _ _ _ _ _ _ _ _ E) as (F & S1 & O & _).
  exists s'. split; [exact E|]. split; [repeat split; congruence|].
  rewrite L. replace (4 - k)%nat with (S (3 - k)) by lia. reflexivity.
Qed.

(** ** Whole passes *)

Lemma first_pass_counts (fuel : nat) (xxs yys xxe yye : Z) (s : raster_state) :
  (1 <= fuel)%nat ->
  xxe - xxs <= Z.of_nat fuel -> yye - yys <= Z.of_nat fuel ->
  exists s', pass fuel xxs yys xxe yye (start_pass 16 1 s) = Some s'
    /\ (frag_size s' = 16 /\ step s' = 16 /\ over s' <> 0)
    /\ length (screen s')
       = (length (screen s)
          + tile_count yys yye * (tile_count xxs xxe * 1))%nat
    /\ tact_reads s' = tact_reads s.
Proof.
  intros Hfuel Hw Hh.
  destruct (for_y_counts fuel
              (fun s => frag_size s = 16 /\ step s = 16 /\ over s <> 0)
              (fun _ _ => True) (fun s => length (screen s)) tact_reads 1 0
              (fun s H => proj1 (proj2 H)) (fun _ _ _ => I) (fun _ _ _ => I)
              (fun x y s _ => first_pass_tile fuel x y s Hfuel)
              xxs xxe yye Hw fuel yys (start_pass 16 1 s))
    as (s' & E & HI & M1 & M2);
    [exact Hh|exact I|simpl; repeat split; lia|].
  exists s'. split; [exact E|]. split; [exact HI|]. split; [exact M1|].
  rewrite M2. simpl. lia.
Qed.

Lemma quiet_pass_counts (fuel k : nat) (xxs yys xxe yye : Z)
      (s : raster_state) :
  (k < 4)%nat -> (4 - k < fuel)%nat -> (forall n, tact_at n = 0) ->
  (16 | xxs) -> (16 | yys) ->
  xxe - xxs <= Z.of_nat fuel -> yye - yys <= Z.of_nat fuel ->
  exists s', pass fuel xxs yys xxe yye (start_pass (pow2 k) 0 s) = Some s'
    /\ length (screen s')
       = (length (screen s)
          + tile_count yys yye * (tile_count xxs xxe * (3 * 4 ^ (3 - k))))%nat.
Proof.
  intros Hk Hfuel Hq Hxs Hys Hw Hh.
  assert (Hright : forall x y : Z,
             (16 | x) /\ (16 | y) -> (16 | x + 16) /\ (16 | y)).
  { intros x y [Hx Hy]. split; [|exact Hy].
    apply Z.divide_add_r; [exact Hx|reflexivity]. }
  assert (Hdown : forall x y : Z,
             (16 | x) /\ (16 | y) -> (16 | x) /\ (16 | y + 16)).
  { intros x y [Hx Hy]. split; [exact Hx|].
    apply Z.divide_add_r; [exact Hy|reflexivity]. }
  assert (Htile : forall x y s0,
             (16 | x) /\ (16 | y) ->
             frag_size s0 = pow2 k /\ step s0 = 16 /\ over s0 = 0 ->
             exists s1, recursor fuel x y 16 s0 = Some s1
               /\ (frag_size s1 = pow2 k /\ step s1 = 16 /\ over s1 = 0)
               /\ length (screen s1)
                  = (length (screen s0) + 3 * 4 ^ (3 - k))%nat
               /\ 0%nat = (0 + 0)%nat).
  { intros x y s0 Hg HI.
    destruct (quiet_tile fuel k x y s0 Hk Hfuel Hq Hg HI)
      as (s1 & E1 & I1 & L1).
    exists s1. split; [exact E1|]. split; [exact I1|]. split; [exact L1|].
    reflexivity. }
  destruct (for_y_counts fuel
              (fun s => frag_size s = pow2 k /\ step s = 16 /\ over s = 0)
              (fun x y => (16 | x) /\ (16 | y))
              (fun s => length (screen s)) (fun _ => 0%nat)
              (3 * 4 ^ (3 - k))%nat 0%nat
              (fun s H => proj1 (proj2 H)) Hright Hdown Htile
              xxs xxe yye Hw fuel yys (start_pass (pow2 k) 0 s))
    as (s' & E & _ & M1 & _);
    [exact Hh|now split|repeat split|].
  exists s'. split; [exact E|exact M1].
Qed.

Lemma cancelled_pass_counts (fuel : nat) (f : Z) (xxs yys xxe yye : Z)
      (s : raster_state) :
  (1 <= fuel)%nat -> f <> 16 -> (forall n, tact_at n <> 0) ->
  xxe - xxs <= Z.of_nat fuel -> yye - yys <= Z.of_nat fuel ->
  exists s', pass fuel xxs yys xxe yye (start_pass f 0 s) = Some s'
    /\ screen s' = screen s
    /\ tact_reads s'
       = (tact_reads s + tile_count yys yye * (tile_count xxs xxe * 1))%nat.
Proof.
  intros Hfuel Hf Hset Hw Hh.
  destruct (for_y_counts fuel
              (fun s => frag_size s = f /\ step s = 16)
              (fun _ _ => True) (fun s => length (screen s)) tact_reads 0 1
              (fun s H => proj2 H) (fun _ _ _ => I) (fun _ _ _ => I)
              (fun x y s _ => cancelled_tile fuel f x y s Hfuel Hf Hset)
              xxs xxe yye Hw fuel yys (start_pass f 0 s))
    as (s' & E & HI & M1 & M2); [exact Hh|exact I|simpl; auto|].
  exists s'. split; [exact E|]. split; [|exact M2].
  pose proof (pass_emits _ _ _ _ _ _ _ _ _ _ E) as (_ & _ & _ & seg & Hseg & _).
  simpl in Hseg, M1. rewrite Hseg, length_app in M1.
  destruct seg; [exact Hseg|simpl in M1; lia].
Qed.

(** A pass over an empty rectangle does nothing, whatever [tact] reads. *)
Lemma for_y_empty (fuel : nat) (xxs xxe yye : Z) :
  forall (n : nat) (y : Z) (s : raster_state),
    step s = 16 -> yye - y <= Z.of_nat n ->
    xxe <= xxs \/ yye <= y ->
    for_y n fuel xxs y xxe yye s = Some s.
Proof.
  induction n as [|n IH]; intros y s Hst Hn Hempty;
    rewrite for_y_unfold; destruct (Z.ltb_spec y yye) as [Hlt|Hge];
    try reflexivity; try lia.
  destruct Hempty as [Hcols|Hrows]; [|lia].
  rewrite for_x_unfold. destruct (Z.ltb_spec xxs xxe); [lia|].
  cbn [mbind option_bind]. rewrite Hst. apply IH; [exact Hst|lia|now left].
Qed.

Local Abbreviation first_passes := (first_passes iter_function vp tact_at).

Lemma first_passes_5 (F : nat) (xxs yys xxe yye : Z) (s : raster_state) :
  first_passes 5 F xxs yys xxe yye s
  = s1 ← pass F xxs yys xxe yye (start_pass 16 1 s);
    s2 ← pass F xxs yys xxe yye (start_pass 8 0 s1);
    s3 ← pass F xxs yys xxe yye (start_pass 4 0 s2);
    s4 ← pass F xxs yys xxe yye (start_pass 2 0 s3);
    pass F xxs yys xxe yye (start_pass 1 0 s4).
Proof.
  simpl.
  change (Z.shiftr 16 (Z.of_nat 0)) with 16.
  change (Z.shiftr 16 (Z.of_nat 1)) with 8.
  change (Z.shiftr 16 (Z.of_nat 2)) with 4.
  change (Z.shiftr 16 (Z.of_nat 3)) with 2.
  change (Z.shiftr 16 (Z.of_nat 4)) with 1.
  destruct (pass F _ _ _ _ (start_pass 16 1 s)) as [s1|]; [simpl|reflexivity].
  destruct (pass F _ _ _ _ (start_pass 8 0 s1)) as [s2|]; [simpl|reflexivity].
  destruct (pass F _ _ _ _ (start_pass 4 0 s2)) as [s3|]; [simpl|reflexivity].
  destruct (pass F _ _ _ _ (start_pass 2 0 s3)) as [s4|]; reflexivity.
Qed.

(** [view] is its five passes and the exit of the loop. *)
Lemma view_first_passes (m : nat) (xxs yys xxe yye : Z) (s : raster_state) :
  view (5 + m) xxs yys xxe yye s
  = s5 ← first_passes 5 (5 + m) xxs yys xxe yye s; Some (start_pass 0 0 s5).
Proof.
  rewrite view_passes, first_passes_5. generalize (5 + m)%nat. intros F.
  destruct (pass F _ _ _ _ (start_pass 16 1 s)) as [s1|]; [simpl|reflexivity].
  destruct (pass F _ _ _ _ (start_pass 8 0 s1)) as [s2|]; [simpl|reflexivity].
  destruct (pass F _ _ _ _ (start_pass 4 0 s2)) as [s3|]; [simpl|reflexivity].
  destruct (pass F _ _ _ _ (start_pass 2 0 s3)) as [s4|]; reflexivity.
Qed.

Lemma shiftr_16 (n : nat) :
  (n <= 4)%nat -> Z.shiftr 16 (Z.of_nat n) = pow2 (4 - n).
Proof.
  intros Hn. do 5 (destruct n as [|n]; [reflexivity|]). lia.
Qed.

Lemma repaints_outside (R : Z -> Z -> bool) (s s' : raster_state)
      (px py : Z) :
  repaints R s s' -> R px py = false ->
  getpixel (screen s') px py = getpixel (screen s) px py.
Proof. intros (_ & _ & _ & Hp) HR. now rewrite Hp, HR. Qed.

(** After the first [n] passes over a rectangle with its origin on the
    16-grid, every pixel of the visited tiles shows the colour of the origin
    of its block of edge [16 >> (n-1)], and every other pixel is as it
    was.  The first pass does not need [tact] to be clear. *)
Lemma first_passes_exact (fuel : nat) (xxs yys xxe yye : Z)
      (s : raster_state) :
  (5 <= fuel)%nat -> (16 | xxs) -> (16 | yys) ->
  xxe - xxs <= Z.of_nat fuel -> yye - yys <= Z.of_nat fuel ->
  forall n : nat,
    (1 <= n <= 5)%nat -> (n = 1%nat \/ forall i, tact_at i = 0) ->
    exists s', first_passes n fuel xxs yys xxe yye s = Some s'
      /\ refined xxs yys xxe yye (5 - n) (screen s')
      /\ forall px py, in_tiles xxs yys xxe yye px py = false ->
           getpixel (screen s') px py = getpixel (screen s) px py.
Proof.
  intros Hfuel Hxs Hys Hw Hh.
  induction n as [|n IH]; intros Hn Hq; [lia|].
  destruct n as [|n].
  - cbn [mbind option_bind]. change (first_passes 1 fuel xxs yys xxe yye s) with (pass fuel xxs yys xxe yye (start_pass (Z.shiftr 16 (Z.of_nat 0)) 1 s)).
    destruct (pass_repaints iter_function vp tact_at 4 fuel xxs yys xxe yye
                            (start_pass 16 1 s))
      as (s1 & E1 & R1 & _);
      try assumption; try reflexivity; try lia; try (now left).
    exists s1. change (Z.shiftr 16 (Z.of_nat 0)) with 16.
    split; [exact E1|]. split.
    + apply (first_pass_refined iter_function vp xxs yys xxe yye
                                (start_pass 16 1 s) s1 R1);
        [simpl; lia|reflexivity].
    + intros px py Hout. now rewrite (repaints_outside _ _ _ _ _ R1 Hout).
  - destruct Hq as [Hq|Hq]; [lia|].
    destruct IH as (s1 & E1 & Href & Hout); [lia|now right|].
    change (first_passes (S (S n)) fuel xxs yys xxe yye s)
      with (s1 ← first_passes (S n) fuel xxs yys xxe yye s;
            pass fuel xxs yys xxe yye
                 (start_pass (Z.shiftr 16 (Z.of_nat (S n))) 0 s1)).
    rewrite E1. cbn [mbind option_bind].
    rewrite shiftr_16 by lia.
    destruct (pass_repaints iter_function vp tact_at (4 - S n) fuel
                            xxs yys xxe yye
                            (start_pass (pow2 (4 - S n)) 0 s1))
      as (s2 & E2 & R2 & _);
      try assumption; try reflexivity; try lia; try (now right).
    exists s2. split; [exact E2|]. split.
    + replace (5 - S (S n))%nat with (4 - S n)%nat by lia.
      apply (next_pass_refined iter_function vp xxs yys xxe yye (4 - S n)
                               (start_pass (pow2 (4 - S n)) 0 s1) s2 R2);
        [reflexivity|reflexivity|].
      replace (S (4 - S n)) with (5 - S n)%nat by lia. exact Href.
    + intros px py Hpx.
      rewrite (repaints_outside _ _ _ _ _ R2 Hpx). simpl. now apply Hout.
Qed.

Lemma fuel_from_5 (fuel : nat) : (5 <= fuel)%nat -> exists m, fuel = (5 + m)%nat.
Proof. intros H. exists (fuel - 5)%nat. lia. Qed.

(** The whole effect of an uncancelled [view] on the screen, for a rectangle
    with its origin on the 16-grid: the pixels of the 16-tiles the loops
    visit (the rectangle rounded up to whole tiles, so up to 15 columns and
    rows beyond [xxe] and [yye]) each show the colour [iter_function] gives
    their own plane point, and every other pixel shows what it showed
    before. *)
Theorem view_pixels_exact (fuel : nat) (xxs yys xxe yye : Z)
        (s : raster_state) :
  (5 <= fuel)%nat -> (16 | xxs) -> (16 | yys) ->
  xxe - xxs <= Z.of_nat fuel -> yye - yys <= Z.of_nat fuel ->
  (forall i, tact_at i = 0) ->
  exists s', view fuel xxs yys xxe yye s = Some s'
    /\ forall px py,
         getpixel (screen s') px py
         = if in_tiles xxs yys xxe yye px py
           then Some (iter_function
                        (xs vp + double_of_int px * xu vp)%float
                        (ys vp + double_of_int py * yu vp)%float)
           else getpixel (screen s) px py.
Proof.
  intros Hfuel Hxs Hys Hw Hh Hq.
  destruct (first_passes_exact fuel xxs yys xxe yye s Hfuel Hxs Hys Hw Hh 5)
    as (s5 & E5 & Href & Hout); [lia|now right|].
  destruct (fuel_from_5 fuel Hfuel) as [m ->].
  rewrite view_first_passes, E5. cbn [mbind option_bind].
  eexists. split; [reflexivity|]. intros px py. simpl.
  destruct (in_tiles xxs yys xxe yye px py) eqn:Hin.
  - rewrite (Href px py Hin). change (pow2 (5 - 5)) with 1.
    now rewrite !origin_1.
  - now apply Hout.
Qed.

(** Coarse-to-fine refinement: after the first [n] passes of an uncancelled
    [view] (n = 1..5, edges 16, 8, 4, 2, 1) every pixel of the visited tiles
    shows the colour of the origin of its block of edge [2^(5-n)], the image
    sampled on the grid of the pass just finished. *)
Theorem first_passes_refine (fuel n : nat) (xxs yys xxe yye : Z)
        (s : raster_state) :
  (5 <= fuel)%nat -> (16 | xxs) -> (16 | yys) ->
  xxe - xxs <= Z.of_nat fuel -> yye - yys <= Z.of_nat fuel ->
  (forall i, tact_at i = 0) ->
  (1 <= n <= 5)%nat ->
  exists s', first_passes n fuel xxs yys xxe yye s = Some s'
    /\ forall px py,
         in_tiles xxs yys xxe yye px py = true ->
         getpixel (screen s') px py
         = Some (block_color (origin (pow2 (5 - n)) px)
                             (origin (pow2 (5 - n)) py)).
Proof.
  intros Hfuel Hxs Hys Hw Hh Hq Hn.
  destruct (first_passes_exact fuel xxs yys xxe yye s Hfuel Hxs Hys Hw Hh n)
    as (s' & E & Href & _); [exact Hn|now right|].
  exists s'. split; [exact E|exact Href].
Qed.

(** No colour is computed twice: an uncancelled [view] on a rectangle with
    its origin on the 16-grid issues exactly 256 fills per visited tile, one
    per pixel (1 + 3 + 12 + 48 + 192 over the five passes). *)
Theorem view_fill_count (fuel : nat) (xxs yys xxe yye : Z)
        (s : raster_state) :
  (5 <= fuel)%nat -> (16 | xxs) -> (16 | yys) ->
  xxe - xxs <= Z.of_nat fuel -> yye - yys <= Z.of_nat fuel ->
  (forall i, tact_at i = 0) ->
  exists s', view fuel xxs yys xxe yye s = Some s'
    /\ length (screen s')
       = (length (screen s)
          + 256 * (tile_count xxs xxe * tile_count yys yye))%nat.
Proof.
  intros Hfuel Hxs Hys Hw Hh Hq.
  destruct (first_pass_counts fuel xxs yys xxe yye s)
    as (s1 & E1 & _ & L1 & _); [lia|exact Hw|exact Hh|].
  destruct (quiet_pass_counts fuel 3 xxs yys xxe yye s1)
    as (s2 & E2 & L2); try assumption; try lia.
  destruct (quiet_pass_counts fuel 2 xxs yys xxe yye s2)
    as (s3 & E3 & L3); try assumption; try lia.
  destruct (quiet_pass_counts fuel 1 xxs yys xxe yye s3)
    as (s4 & E4 & L4); try assumption; try lia.
  destruct (quiet_pass_counts fuel 0 xxs yys xxe yye s4)
    as (s5 & E5 & L5); try assumption; try lia.
  change (pow2 3) with 8 in E2. change (pow2 2) with 4 in E3.
  change (pow2 1) with 2 in E4. change (pow2 0) with 1 in E5.
  change (3 * 4 ^ (3 - 3))%nat with 3%nat in L2.
  change (3 * 4 ^ (3 - 2))%nat with 12%nat in L3.
  change (3 * 4 ^ (3 - 1))%nat with 48%nat in L4.
  change (3 * 4 ^ (3 - 0))%nat with 192%nat in L5.
  destruct (fuel_from_5 fuel Hfuel) as [m ->].
  rewrite view_passes, E1. cbn [mbind option_bind].
  rewrite E2. cbn [mbind option_bind]. rewrite E3. cbn [mbind option_bind].
  rewrite E4. cbn [mbind option_bind]. rewrite E5. cbn [mbind option_bind].
  eexists. split; [reflexivity|]. simpl screen.
  rewrite L5, L4, L3, L2, L1. nia.
Qed.

(** A [view] that finds [tact] set at every read still returns, and what it
    has drawn is exactly its first pass, one fill per tile; the four later
    passes read [tact] once per tile and draw nothing. *)
Theorem view_cancelled_keeps_first_pass (fuel : nat) (xxs yys xxe yye : Z)
        (s : raster_state) :
  (5 <= fuel)%nat ->
  xxe - xxs <= Z.of_nat fuel -> yye - yys <= Z.of_nat fuel ->
  (forall i, tact_at i <> 0) ->
  exists s1 s',
    pass fuel xxs yys xxe yye (start_pass 16 1 s) = Some s1
    /\ view fuel xxs yys xxe yye s = Some s'
    /\ screen s' = screen s1
    /\ length (screen s1)
       = (length (screen s) + tile_count xxs xxe * tile_count yys yye)%nat
    /\ tact_reads s'
       = (tact_reads s + 4 * (tile_count xxs xxe * tile_count yys yye))%nat.
Proof.
  intros Hfuel Hw Hh Hset.
  destruct (first_pass_counts fuel xxs yys xxe yye s)
    as (s1 & E1 & _ & L1 & T1); [lia|exact Hw|exact Hh|].
  destruct (cancelled_pass_counts fuel 8 xxs yys xxe yye s1)
    as (s2 & E2 & S2 & T2); try assumption; try lia.
  destruct (cancelled_pass_counts fuel 4 xxs yys xxe yye s2)
    as (s3 & E3 & S3 & T3); try assumption; try lia.
  destruct (cancelled_pass_counts fuel 2 xxs yys xxe yye s3)
    as (s4 & E4 & S4 & T4); try assumption; try lia.
  destruct (cancelled_pass_counts fuel 1 xxs yys xxe yye s4)
    as (s5 & E5 & S5 & T5); try assumption; try lia.
  exists s1. destruct (fuel_from_5 fuel Hfuel) as [m ->].
  rewrite view_passes, E1. cbn [mbind option_bind].
  rewrite E2. cbn [mbind option_bind]. rewrite E3. cbn [mbind option_bind].
  rewrite E4. cbn [mbind option_bind]. rewrite E5. cbn [mbind option_bind].
  eexists. split; [reflexivity|]. split; [reflexivity|].
  simpl. split; [congruence|]. split; [rewrite L1; nia|].
  rewrite T5, T4, T3, T2, T1. nia.
Qed.

(** A rectangle with no column or no row: [view] returns at once for any
    reading of [tact], having drawn nothing and read [tact] never; only the
    three control globals are left at their exit values. *)
Theorem view_empty_rectangle (fuel : nat) (xxs yys xxe yye : Z)
        (s : raster_state) :
  (5 <= fuel)%nat -> yye - yys <= Z.of_nat fuel ->
  xxe <= xxs \/ yye <= yys ->
  view fuel xxs yys xxe yye s
  = Some (RasterState 0 16 0 (tact_reads s) (screen s)).
Proof.
  intros Hfuel Hh Hempty.
  assert (Hpass : forall f ov s0,
             pass fuel xxs yys xxe yye (start_pass f ov s0)
             = Some (start_pass f ov s0)).
  { intros f ov s0. apply for_y_empty; [reflexivity|exact Hh|exact Hempty]. }
  destruct (fuel_from_5 fuel Hfuel) as [m ->].
  rewrite view_passes.
  do 5 (rewrite Hpass; cbn [mbind option_bind]). reflexivity.
Qed.

End RasterizerLoops.

(** The rasterizer facts on the browser's first frame: a 20x20 rectangle at
    the origin, which the loops round up to four tiles. *)

Lemma view_pixels_exact_witness :
  exists s',
    view mandel_function browser_view never_set 32 0 0 20 20 blank_screen
    = Some s'
    /\ forall px py,
         getpixel (screen s') px py
         = if in_tiles 0 0 20 20 px py
           then Some (mandel_function
                        (xs browser_view
                         + double_of_int px * xu browser_view)%float
                        (ys browser_view
                         + double_of_int py * yu browser_view)%float)
           else getpixel (screen blank_screen) px py.
Proof.
  apply (view_pixels_exact mandel_function browser_view never_set
                           32 0 0 20 20 blank_screen).
  - lia.
  - exists 0. reflexivity.
  - exists 0. reflexivity.
  - simpl. lia.
  - simpl. lia.
  - intros i. reflexivity.
Defined.

Lemma first_passes_refine_witness :
  exists s',
    first_passes mandel_function browser_view never_set 2 32 0 0 20 20
                 blank_screen = Some s'
    /\ forall px py,
         in_tiles 0 0 20 20 px py = true ->
         getpixel (screen s') px py
         = Some (block_color mandel_function browser_view
                             (origin (pow2 (5 - 2)) px)
                             (origin (pow2 (5 - 2)) py)).
Proof.
  apply (first_passes_refine mandel_function browser_view never_set
                             32 2 0 0 20 20 blank_screen).
  - lia.
  - exists 0. reflexivity.
  - exists 0. reflexivity.
  - simpl. lia.
  - simpl. lia.
  - intros i. reflexivity.
  - lia.
Defined.

Lemma view_fill_count_witness :
  exists s',
    view mandel_function browser_view never_set 32 0 0 20 20 blank_screen
    = Some s'
    /\ length (screen s')
       = (length (screen blank_screen)
          + 256 * (tile_count 0 20 * tile_count 0 20))%nat.
Proof.
  apply (view_fill_count mandel_function browser_view never_set
                         32 0 0 20 20 blank_screen).
  - lia.
  - exists 0. reflexivity.
  - exists 0. reflexivity.
  - simpl. lia.
  - simpl. lia.
  - intros i. reflexivity.
Defined.

Lemma view_cancelled_keeps_first_pass_witness :
  exists s1 s',
    pass mandel_function browser_view always_set 32 0 0 20 20
         (start_pass 16 1 blank_screen) = Some s1
    /\ view mandel_function browser_view always_set 32 0 0 20 20 blank_screen
       = Some s'
    /\ screen s' = screen s1
    /\ length (screen s1)
       = (length (screen blank_screen) + tile_count 0 20 * tile_count 0 20)%nat
    /\ tact_reads s'
       = (tact_reads blank_screen
          + 4 * (tile_count 0 20 * tile_count 0 20))%nat.
Proof.
  apply (view_cancelled_keeps_first_pass mandel_function browser_view
                                         always_set 32 0 0 20 20 blank_screen).
  - lia.
  - simpl. lia.
  - simpl. lia.
  - intros i. unfold always_set. lia.
Defined.

Lemma view_empty_rectangle_witness :
  view mandel_function browser_view always_set 5 0 0 0 4 blank_screen
  = Some (RasterState 0 16 0 (tact_reads blank_screen) (screen blank_screen)).
Proof.
  apply (view_empty_rectangle mandel_function browser_view always_set
                              5 0 0 0 4 blank_screen).
  - lia.
  - simpl. lia.
  - left. lia.
Defined.

(** * Further properties of the orbit tracer *)

(** Two runs of the escape loop from the same point that differ only in
    their limit agree up to the smaller limit. *)
Lemma escape_loop_limits (c z : float * float) (fuel1 fuel2 : nat)
      (L1 L2 n1 n2 : Z) :
  0 < L1 <= L2 -> L1 <= Z.of_nat fuel1 -> L2 <= Z.of_nat fuel2 ->
  escape_loop fuel1 L1 c z 0 = Some n1 ->
  escape_loop fuel2 L2 c z 0 = Some n2 ->
  n1 = Z.min n2 L1.
Proof.
  intros HL Hf1 Hf2 E1 E2.
  destruct (escape_loop_spec L1 c fuel1 z 0) as (m1 & F1 & R1 & In1 & Out1);
    [lia|lia|].
  destruct (escape_loop_spec L2 c fuel2 z 0) as (m2 & F2 & R2 & In2 & Out2);
    [lia|lia|].
  rewrite E1 in F1. rewrite E2 in F2.
  injection F1 as <-. injection F2 as <-.
  rewrite Z.sub_0_r in Out1, Out2.
  destruct (Z.lt_ge_cases n2 L1) as [Hlt|Hge].
  - rewrite Z.min_l by lia.
    destruct (Z.lt_trichotomy n1 n2) as [H|[H|H]]; [|exact H|].
    + specialize (Out1 ltac:(lia)).
      rewrite (In2 (Z.to_nat n1)) in Out1 by lia. discriminate.
    + specialize (Out2 ltac:(lia)).
      rewrite (In1 (Z.to_nat n2)) in Out2 by lia. discriminate.
  - rewrite Z.min_r by lia.
    destruct (Z.eq_dec n1 L1) as [|Hne]; [assumption|].
    specialize (Out1 ltac:(lia)).
    rewrite (In2 (Z.to_nat n1)) in Out1 by lia. discriminate.
Qed.

(** The drawing loop, in closed form: started at iterate [z] with previous
    iterate [sz] and counter [i], it issues one call per step, in order; the
    [k]-th of them (from 0) is for step [i+1+k], from iterate [k-1] of [z]
    (or [sz] when [k = 0]) to iterate [k] of [z]. *)
Lemma orbit_draw_loop_trace (og : orbit_globals) (vp : viewport)
      (xxs yys itr : Z) :
  forall (fuel : nat) (z sz : float * float) (i n : Z)
         (out : list draw_call),
    i < orbit_iter_limit ->
    escape_loop fuel orbit_iter_limit (cx og, cy og) z i = Some n ->
    exists calls,
      orbit_draw_loop fuel og vp xxs yys itr z sz i out
      = Some (n, calls ++ out)
      /\ rev calls
         = map (fun k : nat =>
                  orbit_call og vp xxs yys itr
                    (match k with
                     | O => sz
                     | S k' => orbit (cx og, cy og) z k'
                     end)
                    (orbit (cx og, cy og) z k)
                    (i + 1 + Z.of_nat k))
               (seq 0 (Z.to_nat
                         ((if n <? orbit_iter_limit then n
                           else orbit_iter_limit - 1) - i))).
Proof.
  induction fuel as [|fuel IH]; intros z sz i n out Hi Hrun; [discriminate|].
  simpl in Hrun |- *. destruct (within_radius z).
  - destruct (Z.ltb_spec (i + 1) orbit_iter_limit) as [Hlt|Hge].
    + pose proof (escape_loop_le _ _ _ _ _ _ Hrun) as Hle.
      fold (step_color og itr (i + 1)).
      fold (orbit_call og vp xxs yys itr sz z (i + 1)).
      destruct (IH (next_iterate (cx og, cy og) z) z (i + 1) n
                   (orbit_call og vp xxs yys itr sz z (i + 1) :: out)
                   Hlt Hrun) as (calls & Hdraw & Htrace).
      exists (calls ++ [orbit_call og vp xxs yys itr sz z (i + 1)]). split.
      * rewrite Hdraw. now rewrite <- app_assoc.
      * set (m := if n <? orbit_iter_limit then n else orbit_iter_limit - 1)
          in *.
        assert (Hm : i + 1 <= m)
          by (unfold m; destruct (Z.ltb_spec n orbit_iter_limit); lia).
        replace (Z.to_nat (m - i)) with (S (Z.to_nat (m - (i + 1)))) by lia.
        rewrite rev_app_distr, Htrace. cbn [rev app seq map].
        rewrite <- seq_shift, map_map. f_equal.
        -- f_equal. lia.
        -- apply map_ext. intros k. f_equal; [now destruct k|lia].
    + injection Hrun as <-. exists []. split; [reflexivity|].
      destruct (Z.ltb_spec (i + 1) orbit_iter_limit); [lia|].
      now replace (Z.to_nat (orbit_iter_limit - 1 - i)) with 0%nat by lia.
  - injection Hrun as <-. exists []. split; [reflexivity|].
    destruct (Z.ltb_spec i orbit_iter_limit); [|lia].
    now replace (Z.to_nat (i - i)) with 0%nat by lia.
Qed.

(** The priming loop fixes what the drawing loop does: both facts the
    theorems below need. *)
Lemma orbit_iterator_runs (fuel : nat) (og : orbit_globals) (vp : viewport)
      (xxs yys xxe yye : Z) :
  orbit_iter_limit <= Z.of_nat fuel ->
  exists (T : Z) (calls : list draw_call),
    escape_loop fuel orbit_iter_limit (cx og, cy og) (cx og, cy og) 0 = Some T
    /\ 0 <= T <= orbit_iter_limit
    /\ orbit_iterator fuel og vp xxs yys xxe yye
       = Some (Textprintf 1 (yye - 8) 0xE0 T
                 :: calls ++ [Rectfill (Rect xxs yys xxe yye 0)])
    /\ rev calls
       = map (fun k : nat =>
                orbit_call og vp xxs yys T
                  (orbit (cx og, cy og) (cx og, cy og) (k - 1))
                  (orbit (cx og, cy og) (cx og, cy og) k)
                  (Z.of_nat k + 1))
             (seq 0 (Z.to_nat (Z.min T (orbit_iter_limit - 1)))).
Proof.
  intros Hfuel.
  destruct (escape_loop_spec orbit_iter_limit (cx og, cy og) fuel
                             (cx og, cy og) 0)
    as (T & Hprime & HT & _); [reflexivity|lia|].
  destruct (orbit_draw_loop_trace og vp xxs yys T fuel (cx og, cy og)
              (cx og, cy og) 0 T [Rectfill (Rect xxs yys xxe yye 0)]
              ltac:(reflexivity) Hprime) as (calls & Hdraw & Htrace).
  exists T, calls. split; [exact Hprime|]. split; [exact HT|]. split.
  - unfold orbit_iterator. cbv zeta. rewrite Hprime. cbn [mbind option_bind].
    rewrite Hdraw. reflexivity.
  - rewrite Htrace.
    replace ((if T <? orbit_iter_limit then T else orbit_iter_limit - 1) - 0)
      with (Z.min T (orbit_iter_limit - 1))
      by (destruct (Z.ltb_spec T orbit_iter_limit); lia).
    apply map_ext. intros k. f_equal; [|lia].
    destruct k as [|k]; [reflexivity|]. f_equal. lia.
Qed.

(** What [orbit_iterator] draws, for every parameter, viewport and mode:
    it clears the rectangle; then, for k = 0, 1, ..., it draws iterate k of
    the parameter's orbit (iterate 0 being the parameter itself) as a point,
    or as a segment that starts at iterate k-1 (the first segment starts
    and ends at the parameter), so that consecutive segments join; it stops
    before the first iterate that fails the radius test, or after 4094
    steps; and it prints the count [T] of the priming loop last. *)
Theorem orbit_iterator_trace (fuel : nat) (og : orbit_globals)
        (vp : viewport) (xxs yys xxe yye : Z) :
  orbit_iter_limit <= Z.of_nat fuel ->
  exists (T : Z) (calls : list draw_call),
    orbit_iterator fuel og vp xxs yys xxe yye
    = Some (Textprintf 1 (yye - 8) 0xE0 T
              :: calls ++ [Rectfill (Rect xxs yys xxe yye 0)])
    /\ rev calls
       = map (fun k : nat =>
                orbit_call og vp xxs yys T
                  (orbit (cx og, cy og) (cx og, cy og) (k - 1))
                  (orbit (cx og, cy og) (cx og, cy og) k)
                  (Z.of_nat k + 1))
             (seq 0 (Z.to_nat (Z.min T (orbit_iter_limit - 1))))
    /\ (forall k : nat,
           Z.of_nat k < Z.min T (orbit_iter_limit - 1) ->
           within_radius (orbit (cx og, cy og) (cx og, cy og) k) = true)
    /\ (T < orbit_iter_limit ->
        within_radius (orbit (cx og, cy og) (cx og, cy og) (Z.to_nat T))
        = false).
Proof.
  intros Hfuel.
  destruct (orbit_iterator_runs fuel og vp xxs yys xxe yye Hfuel)
    as (T & calls & Hprime & HT & Hrun & Htrace).
  destruct (escape_loop_spec orbit_iter_limit (cx og, cy og) fuel
                             (cx og, cy og) 0)
    as (T' & Hprime' & _ & Hin & Hout); [reflexivity|lia|].
  rewrite Hprime in Hprime'. injection Hprime' as <-.
  exists T, calls. split; [exact Hrun|]. split; [exact Htrace|]. split.
  - intros k Hk. apply Hin. lia.
  - intros Hlt. specialize (Hout Hlt). now rewrite Z.sub_0_r in Hout.
Qed.

(** The count the probe prints and the colour the Mandelbrot browser gives
    the same point agree up to the browser's cap: [mandel_iterator] at the
    parameter is [min T 255].  The number of steps drawn is [min T 4094];
    nothing is drawn, and [T] is 0, exactly when the parameter itself fails
    the radius test. *)
Theorem orbit_readout_matches_mandel (fuel : nat) (og : orbit_globals)
        (vp : viewport) (xxs yys xxe yye : Z) :
  orbit_iter_limit <= Z.of_nat fuel ->
  exists (T : Z) (calls : list draw_call),
    orbit_iterator fuel og vp xxs yys xxe yye
    = Some (Textprintf 1 (yye - 8) 0xE0 T
              :: calls ++ [Rectfill (Rect xxs yys xxe yye 0)])
    /\ mandel_iterator (cx og) (cy og) = Some (Z.min T ipp)
    /\ length calls = Z.to_nat (Z.min T (orbit_iter_limit - 1))
    /\ (T = 0 <-> within_radius (cx og, cy og) = false).
Proof.
  intros Hfuel.
  destruct (orbit_iterator_runs fuel og vp xxs yys xxe yye Hfuel)
    as (T & calls & Hprime & HT & Hrun & Htrace).
  exists T, calls. split; [exact Hrun|]. split; [|split].
  - destruct (field_iterator_spec (cx og, cy og) (cx og, cy og))
      as (n & Hn & _).
    unfold mandel_iterator, mandel_iterator_fuel. rewrite Hn. f_equal.
    apply (escape_loop_limits (cx og, cy og) (cx og, cy og)
                              (Z.to_nat ipp) fuel ipp orbit_iter_limit n T);
      try assumption; unfold ipp, orbit_iter_limit in *; lia.
  - rewrite <- length_rev, Htrace, length_map, length_seq. reflexivity.
  - destruct (escape_loop_spec orbit_iter_limit (cx og, cy og) fuel
                               (cx og, cy og) 0)
      as (T' & Hprime' & _ & Hin & Hout); [reflexivity|lia|].
    rewrite Hprime in Hprime'. injection Hprime' as <-. split.
    + intros ->. apply (Hout ltac:(reflexivity)).
    + intros Hc. destruct (Z.eq_dec T 0) as [|Hne]; [assumption|].
      pose proof (Hin 0%nat ltac:(lia)) as H0. simpl in H0.
      rewrite H0 in Hc. discriminate.
Qed.

Lemma call_color_orbit_call (og : orbit_globals) (vp : viewport)
      (xxs yys itr : Z) (p q : float * float) (i : Z) :
  call_color (orbit_call og vp xxs yys itr p q i) = step_color og itr i.
Proof. unfold orbit_call. now destruct (negb (orbit_pixel og =? 0)). Qed.

(** With the gradient off, every colour [orbit_iterator] passes to the
    display is 0 (the clearing fill), 0xFF (the steps) or 0xE0 (the
    readout), whatever the parameter: all within 0..255. *)
Theorem orbit_plain_colors (fuel : nat) (og : orbit_globals)
        (vp : viewport) (xxs yys xxe yye : Z) :
  orbit_iter_limit <= Z.of_nat fuel ->
  pal_gradient og = 0 ->
  exists (T : Z) (calls : list draw_call),
    orbit_iterator fuel og vp xxs yys xxe yye
    = Some (Textprintf 1 (yye - 8) 0xE0 T
              :: calls ++ [Rectfill (Rect xxs yys xxe yye 0)])
    /\ Forall (fun d => call_color d = 0xFF) calls
    /\ Forall (fun d => 0 <= call_color d <= 255)
              (Textprintf 1 (yye - 8) 0xE0 T
                 :: calls ++ [Rectfill (Rect xxs yys xxe yye 0)]).
Proof.
  intros Hfuel Hgrad.
  destruct (orbit_iterator_runs fuel og vp xxs yys xxe yye Hfuel)
    as (T & calls & Hprime & HT & Hrun & Htrace).
  assert (Hcalls : Forall (fun d => call_color d = 0xFF) calls).
  { rewrite <- (List.rev_involutive calls). apply List.Forall_rev.
    rewrite Htrace. apply List.Forall_forall.
    intros d Hd. apply List.in_map_iff in Hd as [k [<- _]].
    rewrite call_color_orbit_call. unfold step_color. now rewrite Hgrad. }
  exists T, calls. split; [exact Hrun|]. split; [exact Hcalls|].
  constructor; [simpl; lia|]. apply Forall_app. split.
  - eapply Forall_impl; [exact Hcalls|]. intros d ->. lia.
  - constructor; [simpl; lia|constructor].
Qed.

(** The orbit tracer on the parameter (1,0), drawn as segments. *)

Lemma orbit_iterator_trace_witness :
  exists (T : Z) (calls : list draw_call),
    orbit_iterator 4096 (OrbitGlobals 1 0 0 0) probe_view
                   0 0 probe_size probe_size
    = Some (Textprintf 1 (probe_size - 8) 0xE0 T
              :: calls ++ [Rectfill (Rect 0 0 probe_size probe_size 0)])
    /\ rev calls
       = map (fun k : nat =>
                orbit_call (OrbitGlobals 1 0 0 0) probe_view 0 0 T
                  (orbit (1, 0)%float (1, 0)%float (k - 1))
                  (orbit (1, 0)%float (1, 0)%float k)
                  (Z.of_nat k + 1))
             (seq 0 (Z.to_nat (Z.min T (orbit_iter_limit - 1))))
    /\ (forall k : nat,
           Z.of_nat k < Z.min T (orbit_iter_limit - 1) ->
           within_radius (orbit (1, 0)%float (1, 0)%float k) = true)
    /\ (T < orbit_iter_limit ->
        within_radius (orbit (1, 0)%float (1, 0)%float (Z.to_nat T)) = false).
Proof.
  apply (orbit_iterator_trace 4096 (OrbitGlobals 1 0 0 0) probe_view
                              0 0 probe_size probe_size).
  apply Z.leb_le. vm_compute. reflexivity.
Defined.

Lemma orbit_readout_matches_mandel_witness :
  exists (T : Z) (calls : list draw_call),
    orbit_iterator 4096 (OrbitGlobals 1 0 0 0) probe_view
                   0 0 probe_size probe_size
    = Some (Textprintf 1 (probe_size - 8) 0xE0 T
              :: calls ++ [Rectfill (Rect 0 0 probe_size probe_size 0)])
    /\ mandel_iterator 1 0 = Some (Z.min T ipp)
    /\ length calls = Z.to_nat (Z.min T (orbit_iter_limit - 1))
    /\ (T = 0 <-> within_radius (1, 0)%float = false).
Proof.
  apply (orbit_readout_matches_mandel 4096 (OrbitGlobals 1 0 0 0) probe_view
                                      0 0 probe_size probe_size).
  apply Z.leb_le. vm_compute. reflexivity.
Defined.

Lemma orbit_plain_colors_witness :
  exists (T : Z) (calls : list draw_call),
    orbit_iterator 4096 (OrbitGlobals 1 0 0 0) probe_view
                   0 0 probe_size probe_size
    = Some (Textprintf 1 (probe_size - 8) 0xE0 T
              :: calls ++ [Rectfill (Rect 0 0 probe_size probe_size 0)])
    /\ Forall (fun d => call_color d = 0xFF) calls
    /\ Forall (fun d => 0 <= call_color d <= 255)
              (Textprintf 1 (probe_size - 8) 0xE0 T
                 :: calls ++ [Rectfill (Rect 0 0 probe_size probe_size 0)]).
Proof.
  apply (orbit_plain_colors 4096 (OrbitGlobals 1 0 0 0) probe_view
                            0 0 probe_size probe_size).
  - apply Z.leb_le. vm_compute. reflexivity.
  - reflexivity.
Defined.

(** * Further properties of the palette *)

#[local] Transparent for_up.

(** A loop of [SetPalColor] over the indices [i .. i+n-1] sets exactly
    those entries. *)
Lemma for_up_SetPalColor (e f y : nat -> Z) (n : nat) :
  forall (i : nat) (pal : list RGB) (k : nat),
    (i + n <= length pal)%nat ->
    for_up n i (fun i => SetPalColor i (e i) (f i) (y i)) pal !!! k
    = if decide (i <= k < i + n)%nat
      then mkRGB (uchar (e k)) (uchar (f k)) (uchar (y k))
      else pal !!! k.
Proof.
  induction n as [|n IH]; intros i pal k Hi.
  - cbn [for_up]. destruct (decide _); [lia|reflexivity].
  - cbn [for_up]. unfold SetPalColor at 2.
    rewrite IH by (rewrite length_insert; lia).
    destruct (decide (S i <= k < S i + n)%nat) as [Hk|Hk].
    + destruct (decide _); [reflexivity|lia].
    + destruct (decide (k = i)) as [->|Hne].
      * rewrite list_lookup_total_insert_eq by lia.
        destruct (decide _); [reflexivity|lia].
      * rewrite list_lookup_total_insert_ne by lia.
        destruct (decide _); [lia|reflexivity].
Qed.

Lemma for_up_SetPalColor_length (e f y : nat -> Z) (n : nat) :
  forall (i : nat) (pal : list RGB),
    length (for_up n i (fun i => SetPalColor i (e i) (f i) (y i)) pal)
    = length pal.
Proof.
  induction n as [|n IH]; intros i pal; [reflexivity|].
  cbn [for_up]. rewrite IH. apply length_insert.
Qed.

#[local] Opaque for_up.

Lemma set_default_pal_on_length (pal : list RGB) :
  length (set_default_pal_on pal) = length pal.
Proof.
  unfold set_default_pal_on.
  rewrite (for_up_SetPalColor_length (fun _ => 0x3F) (fun _ => 0x3F)
                                     (fun _ => 0x3F)).
  rewrite (for_up_SetPalColor_length (fun _ => 0x3F) (fun _ => 0x3F)
                                     (fun i => Z.of_nat i - 0xC0)).
  rewrite (for_up_SetPalColor_length (fun _ => 0x3F)
                                     (fun i => Z.of_nat i - 0x40)
                                     (fun _ => 0)).
  apply (for_up_SetPalColor_length Z.of_nat (fun _ => 0) (fun _ => 0)).
Qed.

Lemma set_default_pal_on_lookup (pal : list RGB) (k : nat) :
  length pal = 256%nat -> (k < 256)%nat ->
  set_default_pal_on pal !!! k = default_entry k.
Proof.
  intros Hlen Hk. unfold set_default_pal_on.
  rewrite (for_up_SetPalColor (fun _ => 0x3F) (fun _ => 0x3F)
                              (fun _ => 0x3F))
    by (rewrite !for_up_SetPalColor_length, Hlen;
        apply Nat.leb_le; vm_compute; reflexivity).
  rewrite (for_up_SetPalColor (fun _ => 0x3F) (fun _ => 0x3F)
                              (fun i => Z.of_nat i - 0xC0))
    by (rewrite !for_up_SetPalColor_length, Hlen;
        apply Nat.leb_le; vm_compute; reflexivity).
  rewrite (for_up_SetPalColor (fun _ => 0x3F) (fun i => Z.of_nat i - 0x40)
                              (fun _ => 0))
    by (rewrite !for_up_SetPalColor_length, Hlen;
        apply Nat.leb_le; vm_compute; reflexivity).
  rewrite (for_up_SetPalColor Z.of_nat (fun _ => 0) (fun _ => 0))
    by (rewrite Hlen; apply Nat.leb_le; vm_compute; reflexivity).
  unfold default_entry, uchar.
  change (0x40)%nat with 64%nat. change (0x80)%nat with 128%nat.
  change (0xC0)%nat with 192%nat.
  change (0x3F mod 256) with 63. change (0 mod 256) with 0.
  destruct (Nat.ltb_spec k 64); [|destruct (Nat.ltb_spec k 128);
    [|destruct (Nat.ltb_spec k 192)]];
    repeat (destruct (decide _); try lia).
  - rewrite Z.mod_small by lia. reflexivity.
  - rewrite Z.mod_small by lia. reflexivity.
  - replace (Z.of_nat k - 192) with (Z.of_nat k + 64 + (-1) * 256) by lia.
    rewrite Z.mod_add, Z.mod_small by lia. reflexivity.
  - reflexivity.
Qed.

(** Restoring the default palette does not depend on the table it finds:
    after any rotations, [set_default_pal] yields the table it yields at
    start, whose entry [i] is [(i,0,0)] for i < 64, [(63,i-64,0)] for
    i < 128, [(63,63,i+64)] for i < 192 (the blue value [i-0xC0] wraps as an
    unsigned char to 192..255) and [(63,63,63)] above. *)
Theorem set_default_pal_on_any (pal : list RGB) :
  length pal = 256%nat ->
  set_default_pal_on pal = set_default_pal
  /\ forall i : nat, (i < 256)%nat ->
       set_default_pal_on pal !!! i = default_entry i.
Proof.
  intros Hlen. split.
  - change set_default_pal
      with (set_default_pal_on (replicate 256 (mkRGB 0 0 0))).
    apply list_eq_total.
    + now rewrite !set_default_pal_on_length, length_replicate.
    + intros k Hk. rewrite set_default_pal_on_length, Hlen in Hk.
      rewrite !set_default_pal_on_lookup;
        try assumption; reflexivity.
  - intros i Hi. now apply set_default_pal_on_lookup.
Qed.

(** ** Rotations in closed form *)

(** At every loop head of [rot_forward_pal] the locals hold the last
    entry of the table, so a call may be cut in two. *)
Lemma forward_iter_state (pal : list RGB) (n : nat) :
  Nat.iter n forward_tick
    (pal, (r (pal !!! 255%nat), g (pal !!! 255%nat), b (pal !!! 255%nat)))
  = (rot_forward_pal n pal,
     (r (rot_forward_pal n pal !!! 255%nat),
      g (rot_forward_pal n pal !!! 255%nat),
      b (rot_forward_pal n pal !!! 255%nat))).
Proof.
  apply injective_projections; [reflexivity|].
  cbn [snd]. destruct n as [|n]; [reflexivity|].
  unfold rot_forward_pal. cbv zeta. rewrite Nat.iter_succ.
  apply forward_tick_saved.
Qed.

(** Ticks of the forward rotation add up across calls: [n + m] ticks in one
    call of [rot_forward_pal] leave the table that [m] ticks in one call
    followed by [n] ticks in another leave, for any table. *)
Theorem rot_forward_pal_add (n m : nat) (pal : list RGB) :
  rot_forward_pal (n + m) pal = rot_forward_pal n (rot_forward_pal m pal).
Proof.
  unfold rot_forward_pal at 1 2. cbv zeta.
  now rewrite Nat.iter_add, forward_iter_state.
Qed.

Lemma rot_forward_pal_length (n : nat) (pal : list RGB) :
  length (rot_forward_pal n pal) = length pal.
Proof.
  unfold rot_forward_pal. cbv zeta. induction n as [|n IH]; [reflexivity|].
  now rewrite Nat.iter_succ, forward_tick_length.
Qed.

Lemma rot_forward_pal_upto_256 (pal : list RGB) (n : nat) :
  length pal = 256%nat -> (n <= 256)%nat ->
  rot_forward_pal n pal = drop (256 - n) pal ++ take (256 - n) pal.
Proof.
  intros Hlen Hn. unfold rot_forward_pal.
  destruct (forward_ticks pal Hlen n Hn) as (L & _ & Lk).
  apply list_eq_total.
  - rewrite L, length_app, length_drop, length_take. lia.
  - intros k Hk. rewrite L in Hk. rewrite Lk by exact Hk.
    destruct (decide (k < n)%nat).
    + rewrite lookup_total_app_l by (rewrite length_drop; lia).
      rewrite lookup_total_drop. f_equal; lia.
    + rewrite lookup_total_app_r by (rewrite length_drop; lia).
      rewrite length_drop, lookup_total_take_lt by lia. f_equal; lia.
Qed.

Lemma rot_forward_pal_periods (pal : list RGB) (q : nat) :
  length pal = 256%nat -> rot_forward_pal (q * 256) pal = pal.
Proof.
  intros Hlen. induction q as [|q IH]; [reflexivity|].
  rewrite Nat.mul_succ_l, Nat.add_comm, rot_forward_pal_add, IH.
  rewrite rot_forward_pal_upto_256 by (assumption || lia).
  rewrite Nat.sub_diag, drop_0, take_0. apply app_nil_r.
Qed.

(** The forward rotation in closed form, for any number of ticks of one
    call: the table is rotated right by [n mod 256] places; it is always a
    permutation of the table it started from, so no colour is lost or
    doubled, and 256 more ticks change nothing. *)
Theorem rot_forward_pal_rotates (n : nat) (pal : list RGB) :
  length pal = 256%nat ->
  rot_forward_pal n pal
  = drop (256 - n mod 256) pal ++ take (256 - n mod 256) pal
  /\ Permutation (rot_forward_pal n pal) pal
  /\ rot_forward_pal (n + 256) pal = rot_forward_pal n pal.
Proof.
  intros Hlen.
  assert (Hform : forall n, rot_forward_pal n pal
                  = drop (256 - n mod 256) pal ++ take (256 - n mod 256) pal).
  { intros n0. pose proof (Nat.mod_upper_bound n0 256 ltac:(lia)) as Hr.
    rewrite (Nat.div_mod_eq n0 256) at 1.
    rewrite Nat.add_comm, (Nat.mul_comm 256), rot_forward_pal_add.
    rewrite rot_forward_pal_periods by exact Hlen.
    apply rot_forward_pal_upto_256; [exact Hlen|lia]. }
  split; [apply Hform|]. split.
  - rewrite Hform. rewrite Permutation_app_comm. now rewrite take_drop.
  - rewrite !Hform.
    assert (Hmod : ((n + 256) mod 256 = n mod 256)%nat)
      by (replace (n + 256)%nat with (n + 1 * 256)%nat by lia;
          apply Nat.Div0.mod_add).
    now rewrite Hmod.
Qed.

Lemma rot_backward_pal_once (pal : list RGB) :
  length pal = 256%nat ->
  length (rot_backward_pal 1 pal) = 256%nat
  /\ forall k : nat, (k < 256)%nat ->
       rot_backward_pal 1 pal !!! k
       = if decide (k + 1 < 256)%nat then pal !!! (k + 1)%nat
         else pal !!! 0%nat.
Proof.
  intros Hlen. destruct (backward_ticks pal Hlen 1 ltac:(lia)) as (L & _ & Lk).
  split; [exact L|exact Lk].
Qed.

Lemma rot_backward_pal_calls (pal : list RGB) :
  length pal = 256%nat ->
  forall n : nat, (n <= 256)%nat ->
    length (Nat.iter n (rot_backward_pal 1) pal) = 256%nat
    /\ forall k : nat, (k < 256)%nat ->
         Nat.iter n (rot_backward_pal 1) pal !!! k
         = if decide (k + n < 256)%nat then pal !!! (k + n)%nat
           else pal !!! (k + n - 256)%nat.
Proof.
  intros Hlen. induction n as [|n IH]; intros Hn.
  - unfold Nat.iter. cbn [nat_rect]. split; [exact Hlen|].
    intros k Hk. destruct (decide _); [|lia]. f_equal; lia.
  - destruct (IH ltac:(lia)) as (L & Lk). clear IH.
    rewrite Nat.iter_succ.
    destruct (rot_backward_pal_once _ L) as (L' & Lk').
    split; [exact L'|]. intros k Hk. rewrite Lk' by exact Hk.
    destruct (decide (k + 1 < 256)%nat).
    + rewrite Lk by lia.
      destruct (decide (k + 1 + n < 256)%nat), (decide (k + S n < 256)%nat);
        try lia; f_equal; lia.
    + rewrite Lk by lia.
      destruct (decide (0 + n < 256)%nat), (decide (k + S n < 256)%nat);
        try lia; f_equal; lia.
Qed.

(** The backward rotation is right as long as every call of
    [rot_backward_pal] is ended after its first tick: one tick rotates the
    table left by one place, 256 such calls restore it, and one backward
    tick followed by one forward tick restores it too. *)
Theorem rot_backward_pal_single_ticks (pal : list RGB) :
  length pal = 256%nat ->
  rot_backward_pal 1 pal = drop 1 pal ++ take 1 pal
  /\ Nat.iter 256 (rot_backward_pal 1) pal = pal
  /\ rot_forward_pal 1 (rot_backward_pal 1 pal) = pal.
Proof.
  intros Hlen. destruct (rot_backward_pal_once pal Hlen) as (L1 & Lk1).
  split; [|split].
  - apply list_eq_total.
    + rewrite L1, length_app, length_drop, length_take. lia.
    + intros k Hk. rewrite L1 in Hk. rewrite Lk1 by exact Hk.
      destruct (decide (k + 1 < 256)%nat).
      * rewrite lookup_total_app_l by (rewrite length_drop; lia).
        rewrite lookup_total_drop. f_equal; lia.
      * rewrite lookup_total_app_r by (rewrite length_drop; lia).
        rewrite length_drop, lookup_total_take_lt by lia. f_equal; lia.
  - destruct (rot_backward_pal_calls pal Hlen 256 ltac:(lia)) as (L & Lk).
    apply list_eq_total; [congruence|].
    intros k Hk. rewrite L in Hk. rewrite Lk by exact Hk.
    destruct (decide _); [lia|]. f_equal; lia.
  - destruct (forward_ticks (rot_backward_pal 1 pal) L1 1 ltac:(lia))
      as (L & _ & Lk).
    fold (rot_forward_pal 1 (rot_backward_pal 1 pal)) in L, Lk.
    apply list_eq_total; [congruence|].
    intros k Hk. rewrite L in Hk. rewrite Lk by exact Hk.
    destruct (decide (k < 1)%nat).
    + rewrite Lk1 by lia. destruct (decide _); [lia|]. f_equal; lia.
    + rewrite Lk1 by lia. destruct (decide _); [|lia]. f_equal; lia.
Qed.

(** The palette facts on tables the program reaches: the default table,
    and the default table after three forward ticks. *)
Lemma set_default_pal_on_any_witness :
  set_default_pal_on (rot_forward_pal 3 set_default_pal) = set_default_pal
  /\ forall i : nat, (i < 256)%nat ->
       set_default_pal_on (rot_forward_pal 3 set_default_pal) !!! i
       = default_entry i.
Proof. apply set_default_pal_on_any. vm_compute. reflexivity. Defined.

Lemma rot_forward_pal_rotates_witness :
  rot_forward_pal 300 set_default_pal
  = drop (256 - 300 mod 256) set_default_pal
    ++ take (256 - 300 mod 256) set_default_pal
  /\ Permutation (rot_forward_pal 300 set_default_pal) set_default_pal
  /\ rot_forward_pal (300 + 256) set_default_pal
     = rot_forward_pal 300 set_default_pal.
Proof. apply rot_forward_pal_rotates. vm_compute. reflexivity. Defined.

Lemma rot_backward_pal_single_ticks_witness :
  rot_backward_pal 1 set_default_pal
  = drop 1 set_default_pal ++ take 1 set_default_pal
  /\ Nat.iter 256 (rot_backward_pal 1) set_default_pal = set_default_pal
  /\ rot_forward_pal 1 (rot_backward_pal 1 set_default_pal) = set_default_pal.
Proof. apply rot_backward_pal_single_ticks. vm_compute. reflexivity. Defined.

(** * Further properties of the field iterators *)

(** ** Signs in double arithmetic *)

Lemma SFmul_opp_opp (prec emax : Z) (a b : spec_float) :
  SFmul prec emax (SFopp a) (SFopp b) = SFmul prec emax a b.
Proof.
  destruct a as [sa|sa| |sa ma ea], b as [sb|sb| |sb mb eb];
    unfold SFmul, SFopp; try reflexivity;
    now destruct sa, sb.
Qed.

Lemma SFmul_opp_r (prec emax : Z) (a b : spec_float) :
  SFmul prec emax a (SFopp b) = SFopp (SFmul prec emax a b).
Proof.
  destruct a as [sa|sa| |sa ma ea], b as [sb|sb| |sb mb eb];
    unfold SFmul; cbn [SFopp]; try reflexivity;
    try (now destruct sa, sb).
  unfold binary_round_aux.
  destruct (shr_fexp _ _ _ _ _) as [mrs' e'].
  destruct (shr_fexp _ _ _ _ _) as [mrs'' e''].
  destruct (shr_m mrs''); [| destruct (_ <=? _)|]; cbn [SFopp];
    try reflexivity; now destruct sa, sb.
Qed.

Lemma double_mul_opp_opp (a b : float) : (- a * - b = a * b)%float.
Proof.
  apply Prim2SF_inj. rewrite !mul_spec, !opp_spec. unfold SF64mul.
  apply SFmul_opp_opp.
Qed.

Lemma double_mul_mul_opp_opp (c a b : float) :
  (c * - a * - b = c * a * b)%float.
Proof.
  apply Prim2SF_inj. rewrite !mul_spec, !opp_spec. unfold SF64mul.
  now rewrite (SFmul_opp_r _ _ (Prim2SF c) (Prim2SF a)), SFmul_opp_opp.
Qed.

Lemma double_zero_add (a : float) :
  Prim2SF a <> S754_zero true -> (0 + a = a)%float.
Proof.
  intros Ha. apply Prim2SF_inj. rewrite add_spec.
  change (Prim2SF 0) with (S754_zero false).
  unfold SF64add, SFadd.
  destruct (Prim2SF a) as [[]|[]| |]; try reflexivity; congruence.
Qed.

(** ** Julia images *)

Lemma escape_loop_S (fuel : nat) (limit : Z) (c z : float * float) (i : Z) :
  escape_loop (S fuel) limit c z i
  = if within_radius z then
      if i + 1 <? limit then escape_loop fuel limit c (next_iterate c z) (i + 1)
      else Some (i + 1)
    else Some i.
Proof. reflexivity. Qed.

Lemma within_radius_opp (x y : float) :
  within_radius ((- x)%float, (- y)%float) = within_radius (x, y).
Proof. unfold within_radius. cbn [fst snd]. now rewrite !double_mul_opp_opp. Qed.

Lemma next_iterate_opp (c : float * float) (x y : float) :
  next_iterate c ((- x)%float, (- y)%float) = next_iterate c (x, y).
Proof.
  unfold next_iterate, Re_Z, Im_Z.
  now rewrite !double_mul_opp_opp, double_mul_mul_opp_opp.
Qed.

(** The Julia image is symmetric about the origin of the plane, exactly and
    for every double, NaN and the infinities included: [julia_iterator] has
    the same result at [(-x, -y)] as at [(x, y)], whatever the parameter
    [cx, cy]. *)
Theorem julia_iterator_symmetric (cx cy x y : float) :
  julia_iterator cx cy (- x) (- y) = julia_iterator cx cy x y.
Proof.
  unfold julia_iterator, julia_iterator_fuel.
  change (Z.to_nat ipp) with (S 254). generalize 254%nat. intros fuel.
  now rewrite !escape_loop_S, within_radius_opp, next_iterate_opp.
Qed.

(** Starting the count one higher gives a result one higher, up to the
    limit. *)
Lemma escape_loop_shift (limit : Z) (c : float * float) :
  forall (f1 f2 : nat) (z : float * float) (i : Z),
    i + 1 < limit ->
    limit - i <= Z.of_nat f1 -> limit - (i + 1) <= Z.of_nat f2 ->
    exists n, escape_loop f1 limit c z i = Some n
      /\ escape_loop f2 limit c z (i + 1) = Some (Z.min (n + 1) limit).
Proof.
  induction f1 as [|f1 IH]; intros f2 z i Hi H1 H2; [lia|].
  destruct f2 as [|f2]; [lia|].
  rewrite !escape_loop_S. destruct (within_radius z).
  - destruct (Z.ltb_spec (i + 1) limit) as [_|]; [|lia].
    destruct (Z.ltb_spec (i + 1 + 1) limit) as [Hlt|Hge].
    + apply IH; lia.
    + destruct (escape_loop_spec limit c f1 (next_iterate c z) (i + 1))
        as (n & Hn & Hr & _); [lia|lia|].
      exists n. split; [exact Hn|]. f_equal; lia.
  - exists i. split; [reflexivity|]. f_equal; lia.
Qed.

(** The Julia image of a parameter and the Mandelbrot image agree where
    they must: for a parameter [(cx, cy)] neither of whose coordinates is
    the negative zero, [julia_iterator] at the parameter itself returns
    what [mandel_iterator] returns there, and at the origin it returns one
    more, up to the limit 255. *)
Theorem julia_iterator_at_origin (cx cy : float) :
  Prim2SF cx <> S754_zero true -> Prim2SF cy <> S754_zero true ->
  exists m, mandel_iterator cx cy = Some m
    /\ julia_iterator cx cy cx cy = Some m
    /\ julia_iterator cx cy 0 0 = Some (Z.min (m + 1) ipp).
Proof.
  intros Hx Hy.
  unfold mandel_iterator, mandel_iterator_fuel, julia_iterator,
    julia_iterator_fuel.
  change (Z.to_nat ipp) with (S 254).
  rewrite (escape_loop_S 254 ipp (cx, cy) (0%float, 0%float)).
  change (within_radius (0%float, 0%float)) with true.
  change (0 + 1 <? ipp) with true. cbv iota.
  assert (Hnext : next_iterate (cx, cy) (0%float, 0%float) = (cx, cy)).
  { unfold next_iterate. cbn [fst snd].
    change (Re_Z 0 0) with 0%float. change (Im_Z 0 0) with 0%float.
    now rewrite !double_zero_add. }
  rewrite Hnext.
  destruct (escape_loop_shift ipp (cx, cy) (S 254) 254 (cx, cy) 0)
    as (m & Hm & Hj); [unfold ipp; lia..|].
  exists m. split; [exact Hm|]. split; [exact Hm|exact Hj].
Qed.

Lemma julia_iterator_at_origin_witness :
  exists m, mandel_iterator (-1) 0 = Some m
    /\ julia_iterator (-1) 0 (-1) 0 = Some m
    /\ julia_iterator (-1) 0 0 0 = Some (Z.min (m + 1) ipp).
Proof.
  apply julia_iterator_at_origin; vm_compute; discriminate.
Defined.
